(** * Schema lifecycle of [app/database_init.py]

    The module owns three operations, [init_db], [drop_db] and [reset_db].
    They drive a persistence engine (SQLAlchemy over PostgreSQL) that lives
    outside the module.  The development has three layers:

    - the Python fragment the module is written in: exceptions and the
      [except Exception] filter, [with] blocks, [for] loops, the logger,
      f-strings, as a state-and-exception monad over a history of events;
    - the three operations, over an arbitrary engine ([Engine]);
    - a reference engine ([Pg]): a catalog of tables, a search path, a
      transaction per connection, a lexer for the two SQL statements the
      module sends, and a fault plan that makes any engine call raise. *)

From stdpp Require Import base option list strings pretty gmap.
#[local] Set Warnings "-clear-no-such-hyp".
Local Open Scope string_scope.
Local Open Scope list_scope.

(** ** Python values the module handles *)

(** An exception object: its class name, [str(e)], and whether its class
    derives from [Exception] ([KeyboardInterrupt] and [SystemExit] derive
    from [BaseException] only and pass through [except Exception]). *)
Record PyExc := mkExc {
  exc_class : string;
  exc_str : string;
  is_Exception : bool
}.

Global Instance PyExc_eq_dec : EqDecision PyExc.
Proof. solve_decision. Defined.

(** How a call ends. *)
Inductive outcome (A : Type) :=
  | Returns (a : A)
  | Raises (e : PyExc).
Arguments Returns {A} a.
Arguments Raises {A} e.

Global Instance outcome_eq_dec {A} `{EqDecision A} : EqDecision (outcome A).
Proof. solve_decision. Defined.

Definition forget {A} (r : outcome A) : outcome unit :=
  match r with
  | Returns _ => Returns tt
  | Raises e => Raises e
  end.

(** A result row: a non-empty tuple of column values; [row[0]] is [row0]. *)
Definition Row : Type := string * list string.
Definition row0 (r : Row) : string := fst r.

Inductive Level := INFO | WARNING | ERROR.

Global Instance Level_eq_dec : EqDecision Level.
Proof. solve_decision. Defined.

(** What the module does to the outside, in the order it does it: each
    engine call with the way it ended, and each logger call. *)
Inductive Event :=
  | EvCreateAll (r : outcome unit)
  | EvDropAll (r : outcome unit)
  | EvConnect (r : outcome unit)
  | EvExecute (sql : string) (r : outcome (list Row))
  | EvCommit (r : outcome unit)
  | EvClose (r : outcome unit)
  | EvLog (lvl : Level) (msg : string).

Global Instance Event_eq_dec : EqDecision Event.
Proof. solve_decision. Defined.

(** ** The persistence engine, as the module sees it

    [create_all] and [drop_all] are [Base.metadata.create_all(bind=engine)]
    and [Base.metadata.drop_all(bind=engine)]; [connect] is
    [engine.connect()], [close] the [__exit__] of the connection; [execute]
    runs [conn.execute(text(sql))] and hands back the rows. *)
Record Engine (W Conn : Type) := mkEngine {
  create_all : W → outcome unit * W;
  drop_all : W → outcome unit * W;
  connect : W → outcome Conn * W;
  execute : Conn → string → W → outcome (list Row) * W;
  commit : Conn → W → outcome unit * W;
  close : Conn → W → outcome unit * W
}.
Arguments create_all {W Conn}.
Arguments drop_all {W Conn}.
Arguments connect {W Conn}.
Arguments execute {W Conn}.
Arguments commit {W Conn}.
Arguments close {W Conn}.

(** ** State and exceptions *)

Record State (W : Type) := mkState {
  world : W;
  history : list Event
}.
Arguments mkState {W}.
Arguments world {W}.
Arguments history {W}.

Definition M (W A : Type) : Type := State W → outcome A * State W.

Global Instance M_ret {W} : MRet (M W) := λ A a st, (Returns a, st).

Global Instance M_bind {W} : MBind (M W) := λ A B f m st,
  match m st with
  | (Returns a, st') => f a st'
  | (Raises e, st') => (Raises e, st')
  end.

Definition raise {W A} (e : PyExc) : M W A := λ st, (Raises e, st).

(** An engine call: the world moves, the call is recorded. *)
Definition call {W A} (op : W → outcome A * W) (ev : outcome A → Event) : M W A :=
  λ st,
    let '(r, w) := op (world st) in
    (r, mkState w (history st ++ [ev r])).

(** [logger.<lvl>(msg)]: the logging module reports nothing to its caller. *)
Definition log {W} (lvl : Level) (msg : string) : M W unit :=
  λ st, (Returns tt, mkState (world st) (history st ++ [EvLog lvl msg])).

(** [try: body  except Exception as e: handler e]. *)
Definition try_except {W A} (body : M W A) (handler : PyExc → M W A) : M W A :=
  λ st,
    match body st with
    | (Returns a, st') => (Returns a, st')
    | (Raises e, st') =>
        if is_Exception e then handler e st' else (Raises e, st')
    end.

(** [for x in xs: body x]. *)
Fixpoint for_each {W A} (xs : list A) (body : A → M W unit) : M W unit :=
  match xs with
  | [] => mret tt
  | x :: xs' => body x ;; for_each xs' body
  end.

(** [with engine.connect() as conn: body conn].  A failing [connect] never
    reaches [__exit__]; otherwise [__exit__] runs on every way out of the
    body, returns nothing (so it swallows nothing), and an exception of its
    own replaces the body's. *)
Definition with_connect {W Conn A} (E : Engine W Conn)
    (body : Conn → M W A) : M W A :=
  conn ← call (connect E) (λ r, EvConnect (forget r));
  λ st,
    let '(r, st1) := body conn st in
    match call (close E conn) EvClose st1 with
    | (Returns _, st2) => (r, st2)
    | (Raises e', st2) => (Raises e', st2)
    end.

(** ** The statements the module sends *)

Definition dq : string := String (Ascii.ascii_of_nat 34) EmptyString.
Definition nl : string := String (Ascii.ascii_of_nat 10) EmptyString.

(** The triple-quoted text of lines 34-37, blanks and line ends included. *)
Definition select_tables_sql : string :=
  nl +:+ "                    SELECT tablename FROM pg_tables " +:+
  nl +:+ "                    WHERE schemaname = 'public'" +:+
  nl +:+ "                ".

(** [f'DROP TABLE IF EXISTS "{table}" CASCADE']. *)
Definition drop_table_sql (table : string) : string :=
  "DROP TABLE IF EXISTS " +:+ dq +:+ table +:+ dq +:+ " CASCADE".

(** ** The module *)

Section Lifecycle.
Context {W Conn : Type} (E : Engine W Conn).

Definition init_db : M W unit :=
  call (create_all E) EvCreateAll ;;
  log INFO "Database tables created.".

(** The loop of lines 41-42, on its own. *)
Definition drop_loop (conn : Conn) (tables : list string) : M W unit :=
  for_each tables (λ table,
    call (execute E conn (drop_table_sql table))
         (EvExecute (drop_table_sql table)) ;;
    mret tt).

(** The body of the [with] block, lines 33-45. *)
Definition cascade_body (conn : Conn) : M W unit :=
  result ← call (execute E conn select_tables_sql) (EvExecute select_tables_sql);
  let tables := map row0 result in
  for_each tables (λ table,
    call (execute E conn (drop_table_sql table))
         (EvExecute (drop_table_sql table)) ;;
    mret tt) ;;
  call (commit E conn) EvCommit ;;
  log INFO ("Dropped " +:+ pretty (length tables) +:+ " tables using CASCADE.").

(** Method 2, the [with] statement of line 32. *)
Definition cascade_drop : M W unit := with_connect E cascade_body.

Definition drop_db : M W unit :=
  try_except
    (call (drop_all E) EvDropAll ;;
     log INFO "Database tables dropped successfully using drop_all.")
    (λ e,
      log WARNING ("drop_all failed: " +:+ exc_str e +:+ ". Trying CASCADE method...") ;;
      try_except cascade_drop
        (λ e2,
          log ERROR ("Failed to drop tables: " +:+ exc_str e2) ;;
          raise e2)).

Definition reset_db : M W unit :=
  log INFO "Resetting database..." ;;
  drop_db ;;
  init_db ;;
  log INFO "Database reset complete.".

End Lifecycle.

(** ** Shapes of a run

    The histories the operations can leave behind, one constructor per way
    through the code.  [drop_db_trace] below shows that every run has one
    of these shapes; the properties of the control flow are read off them. *)

Definition warning_msg (e : PyExc) : string :=
  "drop_all failed: " +:+ exc_str e +:+ ". Trying CASCADE method...".
Definition error_msg (e2 : PyExc) : string :=
  "Failed to drop tables: " +:+ exc_str e2.
Definition dropped_msg (tables : list string) : string :=
  "Dropped " +:+ pretty (length tables) +:+ " tables using CASCADE.".

(** The events the state [st'] has seen since [st]. *)
Definition since {W} (st st' : State W) : list Event :=
  drop (length (history st)) (history st').

(** The state in which the fallback starts: the failed [drop_all] and the
    warning are on record. *)
Definition fallback_start {W} (st : State W) (e : PyExc) (w1 : W) : State W :=
  mkState w1 (history st ++ [EvDropAll (Raises e); EvLog WARNING (warning_msg e)]).

(** The state in which [reset_db] calls [drop_db]. *)
Definition reset_start {W} (st : State W) : State W :=
  mkState (world st) (history st ++ [EvLog INFO "Resetting database..."]).

(** One successful [DROP] per table of [tables], in order. *)
Definition drops_ok (tables : list string) (evs : list Event) : Prop :=
  Forall2 (λ t ev, ∃ rows, ev = EvExecute (drop_table_sql t) (Returns rows))
          tables evs.

Inductive body_trace : outcome unit → list Event → Prop :=
  | bt_select_raises e :
      body_trace (Raises e) [EvExecute select_tables_sql (Raises e)]
  | bt_drop_raises rows gone t rest dropped e :
      map row0 rows = gone ++ t :: rest →
      drops_ok gone dropped →
      body_trace (Raises e)
        (EvExecute select_tables_sql (Returns rows)
           :: dropped ++ [EvExecute (drop_table_sql t) (Raises e)])
  | bt_commit_raises rows dropped e :
      drops_ok (map row0 rows) dropped →
      body_trace (Raises e)
        (EvExecute select_tables_sql (Returns rows)
           :: dropped ++ [EvCommit (Raises e)])
  | bt_committed rows dropped :
      drops_ok (map row0 rows) dropped →
      body_trace (Returns tt)
        (EvExecute select_tables_sql (Returns rows)
           :: dropped ++ [EvCommit (Returns tt);
                          EvLog INFO (dropped_msg (map row0 rows))]).

Inductive cascade_trace : outcome unit → list Event → Prop :=
  | ct_connect_raises e :
      cascade_trace (Raises e) [EvConnect (Raises e)]
  | ct_closed r evs :
      body_trace r evs →
      cascade_trace r (EvConnect (Returns tt) :: evs ++ [EvClose (Returns tt)])
  | ct_close_raises r evs e' :
      body_trace r evs →
      cascade_trace (Raises e')
        (EvConnect (Returns tt) :: evs ++ [EvClose (Raises e')]).

Inductive drop_trace : outcome unit → list Event → Prop :=
  | dt_primary :
      drop_trace (Returns tt)
        [EvDropAll (Returns tt);
         EvLog INFO "Database tables dropped successfully using drop_all."]
  | dt_uncaught e :
      is_Exception e = false →
      drop_trace (Raises e) [EvDropAll (Raises e)]
  | dt_fallback e evs :
      is_Exception e = true →
      cascade_trace (Returns tt) evs →
      drop_trace (Returns tt)
        (EvDropAll (Raises e) :: EvLog WARNING (warning_msg e) :: evs)
  | dt_fatal e e2 evs :
      is_Exception e = true →
      is_Exception e2 = true →
      cascade_trace (Raises e2) evs →
      drop_trace (Raises e2)
        (EvDropAll (Raises e) :: EvLog WARNING (warning_msg e)
           :: evs ++ [EvLog ERROR (error_msg e2)])
  | dt_fallback_uncaught e e2 evs :
      is_Exception e = true →
      is_Exception e2 = false →
      cascade_trace (Raises e2) evs →
      drop_trace (Raises e2)
        (EvDropAll (Raises e) :: EvLog WARNING (warning_msg e) :: evs).

(** The exception an engine call ended with, if it raised. *)
Definition raised_by (ev : Event) : option PyExc :=
  match ev with
  | EvCreateAll (Raises e) | EvDropAll (Raises e) | EvConnect (Raises e)
  | EvExecute _ (Raises e) | EvCommit (Raises e) | EvClose (Raises e) => Some e
  | _ => None
  end.

(** The exception of the last engine call that raised. *)
Definition last_raised (evs : list Event) : option PyExc :=
  last (omap raised_by evs).

Definition is_create_all (ev : Event) : bool :=
  match ev with EvCreateAll _ => true | _ => false end.
Definition is_commit (ev : Event) : bool :=
  match ev with EvCommit _ => true | _ => false end.
Definition is_connect (ev : Event) : bool :=
  match ev with EvConnect _ => true | _ => false end.
Definition is_failed_execute (ev : Event) : bool :=
  match ev with EvExecute _ (Raises _) => true | _ => false end.
Definition is_close (ev : Event) : bool :=
  match ev with EvClose _ => true | _ => false end.
Definition is_opened (ev : Event) : bool :=
  match ev with EvConnect (Returns _) => true | _ => false end.

(** Calls on a connection, and the calls that open and close one. *)
Definition uses_connection (ev : Event) : bool :=
  match ev with
  | EvConnect _ | EvExecute _ _ | EvCommit _ | EvClose _ => true
  | _ => false
  end.

Definition count_where (p : Event → bool) (evs : list Event) : nat :=
  length (List.filter p evs).

(** The events after the first [__exit__] of the connection. *)
Fixpoint after_close (evs : list Event) : list Event :=
  match evs with
  | [] => []
  | ev :: evs' => if is_close ev then evs' else after_close evs'
  end.

(** The last record of a reset that went through. *)
Definition reset_complete : Event := EvLog INFO "Database reset complete.".

(** Events of the body of the [with] block. *)
Definition statement_event (ev : Event) : Prop :=
  match ev with
  | EvExecute _ _ | EvCommit _ | EvLog INFO _ => True
  | _ => False
  end.


(** The events before the first commit. *)
Fixpoint until_commit (evs : list Event) : list Event :=
  match evs with
  | [] => []
  | ev :: evs' => if is_commit ev then [] else ev :: until_commit evs'
  end.

(** A history in which every commit is well placed: no statement has
    failed, and before the first commit the catalog query has answered and
    each table of its answer has had its drop statement run. *)
Definition commit_guarded (evs : list Event) : Prop :=
  ∀ rc, EvCommit rc ∈ evs →
    (∀ sql e, EvExecute sql (Raises e) ∉ evs) ∧
    ∃ rows,
      EvExecute select_tables_sql (Returns rows) ∈ until_commit evs ∧
      ∀ row, row ∈ rows →
        ∃ rs, EvExecute (drop_table_sql (row0 row)) (Returns rs) ∈ until_commit evs.

(** Events of the [with] statement: calls on the connection and the
    record of a completed drop. *)
Definition fallback_event (ev : Event) : Prop :=
  match ev with
  | EvCreateAll _ | EvDropAll _ | EvLog WARNING _ | EvLog ERROR _ => False
  | _ => True
  end.

(** Events that are neither a commit nor a failed statement. *)
Definition bystander (ev : Event) : Prop :=
  is_commit ev = false ∧ is_failed_execute ev = false.

(** ** A reference engine: PostgreSQL behind SQLAlchemy

    What the engine is taken to do, from the documentation of the two
    systems:
    - the catalog is a set of tables, each a pair of a schema name and a
      table name; a name without schema denotes the first table of that
      name along the search path.  The path is the effective one: the
      schemas that exist, in the order they are searched, the session's
      temporary schema before the others when it has one; the system
      catalog schema is left out;
    - [create_all] and [drop_all] work through the registry with
      [checkfirst]: a registered name is created only when no table of that
      name is visible, and dropped only when one is; both run in a
      transaction of their own;
    - a connection works on its own view of the catalog, published by
      [commit] and discarded when the connection is closed first;
    - statements arrive as text and are lexed the way PostgreSQL lexes
      quoted identifiers and string literals;
    - any engine call may fail for reasons of its own (lost connection,
      lock timeout, dependent objects): a fault plan says which.

    Two things the engine does are outside the model, and the theorems
    below are stated so that they do not lean on them:
    - [text()] reads a colon followed by word characters as a bind
      parameter and a backslash before a colon as an escape, so the text
      the server receives is the text of the statement only when the
      table name brings neither; [word_name] singles out names of
      letters, digits and underscores, for which it is;
    - [CASCADE] also drops the tables that depend on the dropped one by
      inheritance or partitioning, in whatever schema they are; the model
      drops the named table alone, so a drop of the model removes no more
      than the server does, and possibly less. *)
Module Pg.

Definition Table : Type := string * string.

(** *** Lexing and parsing statement text *)

Inductive token :=
  | Word (s : string)
  | QIdent (s : string)
  | SLit (s : string).

Global Instance token_eq_dec : EqDecision token.
Proof. solve_decision. Defined.

Inductive lex_state :=
  | Idle
  | InWord (acc : string)
  | InQuoted (acc : string)
  | QuotedEnd (acc : string)
  | InLit (acc : string)
  | LitEnd (acc : string).

Definition dquote : Ascii.ascii := Ascii.ascii_of_nat 34.
Definition squote : Ascii.ascii := Ascii.ascii_of_nat 39.

Definition is_space (c : Ascii.ascii) : bool :=
  bool_decide (c = Ascii.ascii_of_nat 32) || bool_decide (c = Ascii.ascii_of_nat 10)
  || bool_decide (c = Ascii.ascii_of_nat 9) || bool_decide (c = Ascii.ascii_of_nat 13).

Definition snoc (acc : string) (c : Ascii.ascii) : string :=
  acc +:+ String c EmptyString.

(** Where a character takes the lexer when no token is open. *)
Definition idle_step (c : Ascii.ascii) : lex_state :=
  if is_space c then Idle
  else if bool_decide (c = dquote) then InQuoted EmptyString
  else if bool_decide (c = squote) then InLit EmptyString
  else InWord (String c EmptyString).

(** One character: the token it closes, if any, and the next state.  A
    doubled quote inside a quoted identifier or a literal stands for one
    quote character. *)
Definition lex_step (q : lex_state) (c : Ascii.ascii) : option token * lex_state :=
  match q with
  | Idle => (None, idle_step c)
  | InWord acc =>
      if is_space c || bool_decide (c = dquote) || bool_decide (c = squote)
      then (Some (Word acc), idle_step c)
      else (None, InWord (snoc acc c))
  | InQuoted acc =>
      if bool_decide (c = dquote) then (None, QuotedEnd acc)
      else (None, InQuoted (snoc acc c))
  | QuotedEnd acc =>
      if bool_decide (c = dquote) then (None, InQuoted (snoc acc dquote))
      else (Some (QIdent acc), idle_step c)
  | InLit acc =>
      if bool_decide (c = squote) then (None, LitEnd acc)
      else (None, InLit (snoc acc c))
  | LitEnd acc =>
      if bool_decide (c = squote) then (None, InLit (snoc acc squote))
      else (Some (SLit acc), idle_step c)
  end.

(** End of text: an open quote is an error. *)
Definition lex_end (q : lex_state) : option (list token) :=
  match q with
  | Idle => Some []
  | InWord acc => Some [Word acc]
  | QuotedEnd acc => Some [QIdent acc]
  | LitEnd acc => Some [SLit acc]
  | InQuoted _ | InLit _ => None
  end.

Fixpoint lex_from (q : lex_state) (s : string) : option (list token) :=
  match s with
  | EmptyString => lex_end q
  | String c s' =>
      match lex_step q c with
      | (Some t, q') => (t ::.) <$> lex_from q' s'
      | (None, q') => lex_from q' s'
      end
  end.

Definition lex (s : string) : option (list token) := lex_from Idle s.

Inductive stmt :=
  | SelectTables (schema : string)
  | DropTable (name : string).

(** The two statements the engine is asked to run; anything else, and a
    zero-length quoted identifier, is a syntax error. *)
Definition parse (sql : string) : option stmt :=
  match lex sql with
  | Some [Word a; Word b; Word c; Word d; Word e; Word f; Word g; SLit s] =>
      if bool_decide ([a; b; c; d; e; f; g] =
           ["SELECT"; "tablename"; "FROM"; "pg_tables"; "WHERE"; "schemaname"; "="])
      then Some (SelectTables s) else None
  | Some [Word a; Word b; Word c; Word d; QIdent n; Word e] =>
      if bool_decide ([a; b; c; d; e] = ["DROP"; "TABLE"; "IF"; "EXISTS"; "CASCADE"])
         && negb (bool_decide (n = EmptyString))
      then Some (DropTable n) else None
  | _ => None
  end.

(** *** The database *)

Record World := mkWorld {
  catalog : gset Table;          (* committed tables *)
  search_path : list string;     (* schemas searched for a bare name *)
  txn : option (gset Table);     (* the open connection's view, if any *)
  faults : list (option PyExc)   (* what each coming engine call does *)
}.

(** The table a bare name denotes. *)
Fixpoint resolve (cat : gset Table) (path : list string) (n : string) : option Table :=
  match path with
  | [] => None
  | s :: path' =>
      if bool_decide ((s, n) ∈ cat) then Some (s, n) else resolve cat path' n
  end.

(** [DROP TABLE IF EXISTS n]: absence is not an error.  The table the name
    denotes goes; tables that depend on it are not followed. *)
Definition drop_table (path : list string) (n : string) (cat : gset Table) : gset Table :=
  match resolve cat path n with
  | Some t => cat ∖ {[t]}
  | None => cat
  end.

(** [CREATE TABLE n] after [checkfirst]; with no schema to create in,
    PostgreSQL refuses. *)
Definition create_table (path : list string) (n : string) (cat : gset Table)
    : option (gset Table) :=
  match resolve cat path n with
  | Some _ => Some cat
  | None =>
      match path with
      | [] => None
      | s :: _ => Some ({[(s, n)]} ∪ cat)
      end
  end.

Fixpoint create_tables (path : list string) (reg : list string) (cat : gset Table)
    : option (gset Table) :=
  match reg with
  | [] => Some cat
  | n :: reg' => cat' ← create_table path n cat; create_tables path reg' cat'
  end.

Definition drop_tables (path : list string) (reg : list string) (cat : gset Table)
    : gset Table :=
  foldr (drop_table path) cat reg.

(** The rows of [SELECT tablename FROM pg_tables WHERE schemaname = s]. *)
Definition tables_of (s : string) (cat : gset Table) : list string :=
  snd <$> elements (filter (λ t : Table, t.1 = s) cat).

Definition rows_of (names : list string) : list Row := (λ n, (n, [])) <$> names.

Definition programming_error (msg : string) : PyExc :=
  mkExc "ProgrammingError" msg true.
Definition closed_error : PyExc :=
  mkExc "ResourceClosedError" "This Connection is closed" true.

(** An engine call first consults the fault plan. *)
Definition with_plan (w : World) (plan : list (option PyExc)) : World :=
  mkWorld (catalog w) (search_path w) (txn w) plan.

Definition guarded {A} (op : World → outcome A * World) (w : World)
    : outcome A * World :=
  match faults w with
  | [] => op w
  | None :: plan => op (with_plan w plan)
  | Some e :: plan => (Raises e, with_plan w plan)
  end.

Definition pg_create_all (reg : list string) : World → outcome unit * World :=
  guarded (λ w,
    match create_tables (search_path w) reg (catalog w) with
    | Some cat => (Returns tt, mkWorld cat (search_path w) (txn w) (faults w))
    | None => (Raises (programming_error "no schema has been selected to create in"), w)
    end).

Definition pg_drop_all (reg : list string) : World → outcome unit * World :=
  guarded (λ w,
    (Returns tt,
     mkWorld (drop_tables (search_path w) reg (catalog w))
             (search_path w) (txn w) (faults w))).

Definition pg_connect : World → outcome unit * World :=
  guarded (λ w,
    (Returns tt, mkWorld (catalog w) (search_path w) (Some (catalog w)) (faults w))).

(** [conn.execute(text(sql))], for statement text without bind parameters
    and escapes: the server gets [sql] as it is. *)
Definition pg_execute (_ : unit) (sql : string) : World → outcome (list Row) * World :=
  guarded (λ w,
    match txn w with
    | None => (Raises closed_error, w)
    | Some view =>
        match parse sql with
        | None => (Raises (programming_error "syntax error"), w)
        | Some (SelectTables s) => (Returns (rows_of (tables_of s view)), w)
        | Some (DropTable n) =>
            (Returns [],
             mkWorld (catalog w) (search_path w)
                     (Some (drop_table (search_path w) n view)) (faults w))
        end
    end).

Definition pg_commit (_ : unit) : World → outcome unit * World :=
  guarded (λ w,
    match txn w with
    | None => (Raises closed_error, w)
    | Some view => (Returns tt, mkWorld view (search_path w) (Some view) (faults w))
    end).

Definition pg_close (_ : unit) : World → outcome unit * World :=
  guarded (λ w,
    (Returns tt, mkWorld (catalog w) (search_path w) None (faults w))).

(** The engine bound to a registry: the table names of [Base.metadata]. *)
Definition engine (reg : list string) : Engine World unit :=
  mkEngine World unit (pg_create_all reg) (pg_drop_all reg)
           pg_connect pg_execute pg_commit pg_close.

(** A process that has logged nothing yet, on the database [cat]. *)
Definition start (cat : gset Table) (path : list string)
    (plan : list (option PyExc)) : State World :=
  mkState (mkWorld cat path None plan) [].

(** The table names of the public schema, as the catalog lists them. *)
Definition public_tables (w : World) : list string := tables_of "public" (catalog w).

(** A name the double quotes of line 42 hold together: not empty, no
    double quote in it. *)
Fixpoint has_dquote (s : string) : bool :=
  match s with
  | EmptyString => false
  | String c s' => bool_decide (c = dquote) || has_dquote s'
  end.

Definition plain_name (n : string) : bool :=
  negb (bool_decide (n = EmptyString)) && negb (has_dquote n).

(** A name of letters, digits and underscores, and not empty: the text of
    its drop statement reaches the server as written. *)
Definition is_word_char (c : Ascii.ascii) : bool :=
  let k := Ascii.nat_of_ascii c in
  (Nat.leb 48 k && Nat.leb k 57) || (Nat.leb 65 k && Nat.leb k 90)
  || (Nat.leb 97 k && Nat.leb k 122) || Nat.eqb k 95.

Fixpoint all_word_chars (s : string) : bool :=
  match s with
  | EmptyString => true
  | String c s' => is_word_char c && all_word_chars s'
  end.

Definition word_name (n : string) : bool :=
  negb (bool_decide (n = EmptyString)) && all_word_chars n.

(** What a statement does to the view it runs on. *)
Definition exec_effect (path : list string) (sql : string) (view : gset Table)
    : gset Table :=
  match parse sql with
  | Some (DropTable n) => drop_table path n view
  | _ => view
  end.

(** The view after the drop statements of the names [names], in order. *)
Definition cascade_effect (path : list string) (names : list string)
    (view : gset Table) : gset Table :=
  foldl (λ v d, exec_effect path (drop_table_sql d) v) view names.

(** The catalog the fallback leaves when it commits. *)
Definition swept (w : World) : gset Table :=
  cascade_effect (search_path w) (tables_of "public" (catalog w)) (catalog w).

(** The exception the coming engine call is planned to raise, if any. *)
Definition next_fault (w : World) : option PyExc :=
  match faults w with
  | Some e :: _ => Some e
  | _ => None
  end.

(** A registered name is visible: some table of that name is on the path. *)
Definition visible (cat : gset Table) (path : list string) (n : string) : Prop :=
  is_Some (resolve cat path n).

(** *** Databases and failures to run the module on *)

Definition sample_registry : list string := ["users"; "orders"].

Definition sample_catalog : gset Table :=
  {[ ("public", "users"); ("public", "orders") ]}.

(** [legacy] was created outside the model layer. *)
Definition legacy_catalog : gset Table :=
  {[ ("public", "users"); ("public", "legacy") ]}.

(** A schema named after the user comes before [public] on the path. *)
Definition shadowed_catalog : gset Table :=
  {[ ("app", "users"); ("public", "users") ]}.

Definition lock_timeout : PyExc :=
  mkExc "OperationalError" "canceling statement due to lock timeout" true.
Definition connection_lost : PyExc :=
  mkExc "OperationalError" "server closed the connection unexpectedly" true.
(** Not an [Exception]: raised when the operator interrupts the process. *)
Definition keyboard_interrupt : PyExc := mkExc "KeyboardInterrupt" "" false.


End Pg.

(** * Properties *)

(** ** Every run has one of the shapes *)

Ltac unfold_M :=
  unfold mbind, M_bind, mret, M_ret, call, log, raise in *; simpl in *.

Lemma since_app {W} (st : State W) (w : W) (evs : list Event) :
  since st (mkState w (history st ++ evs)) = evs.
Proof. unfold since. simpl. by rewrite drop_app_length. Qed.

Lemma since_history {W} (st st' : State W) (evs : list Event) :
  history st' = history st ++ evs → since st st' = evs.
Proof. intros H. unfold since. rewrite H. by rewrite drop_app_length. Qed.

Section Traces.
Context {W Conn : Type} (E : Engine W Conn).

Lemma drop_loop_trace conn tables st :
  ∃ evs, history (drop_loop E conn tables st).2 = history st ++ evs ∧
    match (drop_loop E conn tables st).1 with
    | Returns _ => drops_ok tables evs
    | Raises e => ∃ gone t rest dropped,
        tables = gone ++ t :: rest ∧ drops_ok gone dropped ∧
        evs = dropped ++ [EvExecute (drop_table_sql t) (Raises e)]
    end.
Proof.
  revert st. induction tables as [|t tables IH]; intros st.
  - exists []. simpl. rewrite app_nil_r. split; [done | constructor].
  - unfold drop_loop. simpl. unfold_M.
    destruct (execute E conn (drop_table_sql t) (world st)) as [[rows|e] w] eqn:Hx;
      simpl.
    + destruct (IH (mkState w (history st ++ [EvExecute (drop_table_sql t) (Returns rows)])))
        as (evs & Hh & Hr).
      unfold drop_loop in Hh, Hr. unfold_M.
      exists (EvExecute (drop_table_sql t) (Returns rows) :: evs). split.
      * rewrite Hh. by rewrite <- app_assoc.
      * destruct (for_each tables _ _) as [[u|e] st2]; simpl in *.
        -- constructor; [by eexists | done].
        -- destruct Hr as (gone & t' & rest & dropped & -> & Hd & ->).
           exists (t :: gone), t', rest,
             (EvExecute (drop_table_sql t) (Returns rows) :: dropped).
           split_and!; [done | | done].
           constructor; [by eexists | done].
    + exists [EvExecute (drop_table_sql t) (Raises e)]. split; [done |].
      exists [], t, tables, []. split_and!; [done | constructor | done].
Qed.

Lemma cascade_body_trace conn st :
  ∃ evs, history (cascade_body E conn st).2 = history st ++ evs ∧
         body_trace (cascade_body E conn st).1 evs.
Proof.
  unfold cascade_body. unfold_M.
  destruct (execute E conn select_tables_sql (world st)) as [[rows|e] w] eqn:Hsel;
    simpl.
  - pose proof (drop_loop_trace conn (map row0 rows)
      (mkState w (history st ++ [EvExecute select_tables_sql (Returns rows)])))
      as (evs & Hh & Hr).
    unfold drop_loop in Hh, Hr. unfold_M.
    destruct (for_each (map row0 rows) _ _) as [[u|e] st2]; simpl in *.
    + destruct (commit E conn (world st2)) as [[[]|e] w'] eqn:Hc; simpl.
      * eexists. split; [| by apply (bt_committed rows evs)].
        rewrite Hh. by rewrite <- !app_assoc.
      * eexists. split; [| by apply (bt_commit_raises rows evs e)].
        rewrite Hh. by rewrite <- !app_assoc.
    + destruct Hr as (gone & t & rest & dropped & Ht & Hd & ->).
      eexists. split; [| by apply (bt_drop_raises rows gone t rest dropped e)].
      rewrite Hh. by rewrite <- !app_assoc.
  - exists [EvExecute select_tables_sql (Raises e)]. split; [done | constructor].
Qed.

Lemma cascade_drop_trace st :
  ∃ evs, history (cascade_drop E st).2 = history st ++ evs ∧
         cascade_trace (cascade_drop E st).1 evs.
Proof.
  unfold cascade_drop, with_connect. unfold_M.
  destruct (connect E (world st)) as [[conn|e] w] eqn:Hc; simpl.
  - pose proof (cascade_body_trace conn
      (mkState w (history st ++ [EvConnect (Returns tt)]))) as (evs & Hh & Hr).
    destruct (cascade_body E conn _) as [r st1]; simpl in *.
    destruct (close E conn (world st1)) as [[[]|e'] w'] eqn:Hx; simpl.
    + eexists. split; [| by apply (ct_closed r evs)].
      rewrite Hh. by rewrite <- !app_assoc.
    + eexists. split; [| by apply (ct_close_raises r evs e')].
      rewrite Hh. by rewrite <- !app_assoc.
  - exists [EvConnect (Raises e)]. split; [done | constructor].
Qed.

Lemma drop_db_trace st :
  ∃ evs, history (drop_db E st).2 = history st ++ evs ∧
         drop_trace (drop_db E st).1 evs.
Proof.
  unfold drop_db, try_except. unfold_M.
  destruct (drop_all E (world st)) as [[[]|e] w] eqn:Hd; simpl.
  - eexists. split; [| constructor]. by rewrite <- !app_assoc.
  - destruct (is_Exception e) eqn:He.
    + pose proof (cascade_drop_trace
        (mkState w ((history st ++ [EvDropAll (Raises e)]) ++
                    [EvLog WARNING (warning_msg e)]))) as (evs & Hh & Hr).
      fold (warning_msg e).
      destruct (cascade_drop E _) as [[[]|e2] st2]; simpl in *.
      * eexists. split; [| by apply (dt_fallback e evs)].
        rewrite Hh. by rewrite <- !app_assoc.
      * destruct (is_Exception e2) eqn:He2; simpl.
        -- eexists. split; [| by apply (dt_fatal e e2 evs)].
           rewrite Hh. by rewrite <- !app_assoc.
        -- eexists. split; [| by apply (dt_fallback_uncaught e e2 evs)].
           rewrite Hh. by rewrite <- !app_assoc.
    + eexists. split; [| by apply dt_uncaught]. done.
Qed.

End Traces.

(** ** Facts about the shapes *)

Lemma drops_ok_quiet tables evs :
  drops_ok tables evs → omap raised_by evs = [].
Proof.
  induction 1 as [|t ev ts evs [rows ->] _ IH]; [done |].
  change (omap raised_by evs = []). exact IH.
Qed.


Lemma drops_ok_all tables evs t :
  drops_ok tables evs → t ∈ tables →
  ∃ rows, EvExecute (drop_table_sql t) (Returns rows) ∈ evs.
Proof.
  induction 1 as [|t' ev ts evs [rows ->] _ IH]; intros Hin.
  - by apply elem_of_nil in Hin.
  - apply elem_of_cons in Hin as [-> | Hin].
    + exists rows. left.
    + destruct (IH Hin) as [rows' H']. exists rows'. by right.
Qed.

Lemma last_raised_snoc evs ev e :
  raised_by ev = Some e → last_raised (evs ++ [ev]) = Some e.
Proof.
  intros H. unfold last_raised. rewrite omap_app. simpl. rewrite H.
  by rewrite last_snoc.
Qed.

Lemma last_raised_quiet_snoc evs ev :
  raised_by ev = None → last_raised (evs ++ [ev]) = last_raised evs.
Proof.
  intros H. unfold last_raised. rewrite omap_app. simpl. rewrite H.
  by rewrite app_nil_r.
Qed.

Lemma body_trace_last_raised e evs :
  body_trace (Raises e) evs → last_raised evs = Some e.
Proof.
  inversion 1; subst.
  - done.
  - rewrite app_comm_cons. by apply last_raised_snoc.
  - rewrite app_comm_cons. by apply last_raised_snoc.
Qed.

Lemma cascade_trace_last_raised e evs :
  cascade_trace (Raises e) evs → last_raised evs = Some e.
Proof.
  inversion 1; subst.
  - done.
  - rewrite app_comm_cons. rewrite last_raised_quiet_snoc by done.
    unfold last_raised. simpl. by apply body_trace_last_raised.
  - rewrite app_comm_cons. by apply last_raised_snoc.
Qed.


Ltac elem_inv H :=
  first
    [ by apply elem_of_nil in H
    | apply elem_of_cons in H as [H | H]; [| elem_inv H]
    | apply elem_of_app in H as [H | H]; [elem_inv H | elem_inv H]
    | idtac ].

Lemma until_commit_app_quiet pre evs :
  Forall (λ ev, is_commit ev = false) pre →
  until_commit (pre ++ evs) = pre ++ until_commit evs.
Proof.
  induction 1 as [|ev pre Hev _ IH]; [done |]. simpl. rewrite Hev. by rewrite IH.
Qed.

Lemma until_commit_app_commit evs post rc :
  EvCommit rc ∈ evs → until_commit (evs ++ post) = until_commit evs.
Proof.
  induction evs as [|ev evs IH]; intros Hin; [by apply elem_of_nil in Hin |].
  simpl. destruct (is_commit ev) eqn:Hc; [done |].
  apply elem_of_cons in Hin as [Heq | Hin]; [by subst ev |]. by rewrite IH.
Qed.

Lemma drops_ok_bystanders tables evs :
  drops_ok tables evs → Forall bystander evs.
Proof.
  induction 1 as [|t ev ts evs [rows ->] _ IH]; constructor; [by split | done].
Qed.

Lemma bystander_not_commit evs rc :
  Forall bystander evs → EvCommit rc ∉ evs.
Proof.
  intros H Hin. rewrite Forall_forall in H. by destruct (H _ Hin).
Qed.

Lemma bystander_not_failed evs sql e :
  Forall bystander evs → EvExecute sql (Raises e) ∉ evs.
Proof.
  intros H Hin. rewrite Forall_forall in H. by destruct (H _ Hin).
Qed.

Lemma bystanders_quiet evs :
  Forall bystander evs → Forall (λ ev, is_commit ev = false) evs.
Proof. intros H. eapply Forall_impl; [exact H |]. by intros ev []. Qed.

(** Bystanders around a history do not disturb its commits. *)
Lemma commit_guarded_wrap pre evs post :
  Forall bystander pre → Forall bystander post →
  commit_guarded evs → commit_guarded (pre ++ evs ++ post).
Proof.
  intros Hpre Hpost Hg rc Hin.
  assert (Hrc : EvCommit rc ∈ evs).
  { apply elem_of_app in Hin as [Hin | Hin]; [by apply bystander_not_commit in Hin |].
    apply elem_of_app in Hin as [Hin | Hin]; [done |].
    by apply bystander_not_commit in Hin. }
  destruct (Hg rc Hrc) as [Hnf (rows & Hsel & Hdrops)]. split.
  - intros sql e Hx. elem_inv Hx.
    + by apply bystander_not_failed in Hx.
    + by apply Hnf in Hx.
    + by apply bystander_not_failed in Hx.
  - rewrite until_commit_app_quiet by by apply bystanders_quiet.
    rewrite (until_commit_app_commit _ _ rc) by done.
    exists rows. split.
    + apply elem_of_app. by right.
    + intros row Hrow. destruct (Hdrops row Hrow) as [rs Hrs].
      exists rs. apply elem_of_app. by right.
Qed.

Lemma commit_guarded_none evs :
  (∀ rc, EvCommit rc ∉ evs) → commit_guarded evs.
Proof. intros H rc Hin. by apply H in Hin. Qed.

Lemma body_trace_guarded r evs : body_trace r evs → commit_guarded evs.
Proof.
  assert (Hcore : ∀ rows dropped rc tail,
    drops_ok (map row0 rows) dropped → Forall bystander tail →
    commit_guarded (EvExecute select_tables_sql (Returns rows)
                      :: dropped ++ EvCommit rc :: tail)).
  { intros rows dropped rc tail Hd Htail rc' Hin.
    pose proof (drops_ok_bystanders _ _ Hd) as Hb. split.
    - intros sql e Hx. elem_inv Hx; try done.
      + by apply bystander_not_failed in Hx.
      + by apply bystander_not_failed in Hx.
    - exists rows.
      assert (Hu : until_commit (EvExecute select_tables_sql (Returns rows)
                     :: dropped ++ EvCommit rc :: tail)
                   = EvExecute select_tables_sql (Returns rows) :: dropped).
      { simpl. f_equal. rewrite until_commit_app_quiet by by apply bystanders_quiet.
        simpl. by rewrite app_nil_r. }
      rewrite Hu. split; [left |].
      intros row Hrow.
      destruct (drops_ok_all _ _ (row0 row) Hd) as [rs Hrs].
      { apply list_elem_of_fmap. by exists row. }
      exists rs. by right. }
  inversion 1; subst.
  - apply commit_guarded_none. intros rc Hin. elem_inv Hin. done.
  - apply commit_guarded_none. intros rc Hin.
    pose proof (drops_ok_bystanders _ _ H1) as Hb.
    elem_inv Hin; try done. by apply bystander_not_commit in Hin.
  - by apply Hcore.
  - apply Hcore; [done |]. repeat constructor.
Qed.

Lemma cascade_trace_guarded r evs : cascade_trace r evs → commit_guarded evs.
Proof.
  inversion 1; subst.
  - apply commit_guarded_none. intros rc Hin. elem_inv Hin. done.
  - apply (commit_guarded_wrap [_] _ [_]); [by repeat constructor .. |].
    by eapply body_trace_guarded.
  - apply (commit_guarded_wrap [_] _ [_]); [by repeat constructor .. |].
    by eapply body_trace_guarded.
Qed.

Lemma commit_guarded_after pre evs :
  Forall bystander pre → commit_guarded evs → commit_guarded (pre ++ evs).
Proof.
  intros Hpre Hg. rewrite <- (app_nil_r evs).
  by apply commit_guarded_wrap.
Qed.

Lemma drop_trace_guarded r evs : drop_trace r evs → commit_guarded evs.
Proof.
  destruct 1 as [|e He|e evs He Hc|e e2 evs He He2 Hc|e e2 evs He He2 Hc].
  - apply commit_guarded_none. intros rc Hin. elem_inv Hin; done.
  - apply commit_guarded_none. intros rc Hin. elem_inv Hin; done.
  - apply (commit_guarded_after [_; _]); [by repeat constructor |].
    by eapply cascade_trace_guarded.
  - apply (commit_guarded_wrap [_; _] _ [_]); [by repeat constructor .. |].
    by eapply cascade_trace_guarded.
  - apply (commit_guarded_after [_; _]); [by repeat constructor |].
    by eapply cascade_trace_guarded.
Qed.

Ltac forall_split :=
  repeat match goal with
  | |- Forall _ [] => constructor
  | |- Forall _ (_ :: _) => constructor
  | |- Forall _ (_ ++ _) => apply Forall_app; split
  end.

Lemma drops_ok_fallback_events tables evs :
  drops_ok tables evs → Forall fallback_event evs.
Proof.
  induction 1 as [|t ev ts evs [rows ->] _ IH]; constructor; done.
Qed.

Lemma body_trace_fallback_events r evs :
  body_trace r evs → Forall fallback_event evs.
Proof.
  destruct 1 as [e|rows gone t rest dropped e Ht Hd|rows dropped e Hd|rows dropped Hd];
    forall_split; eauto using drops_ok_fallback_events; done.
Qed.

Lemma cascade_trace_fallback_events r evs :
  cascade_trace r evs → Forall fallback_event evs.
Proof.
  destruct 1 as [e|r evs Hb|r evs e' Hb];
    forall_split; eauto using body_trace_fallback_events; done.
Qed.

Lemma fallback_events_no_create evs :
  Forall fallback_event evs → Forall (λ ev, is_create_all ev = false) evs.
Proof. intros H. eapply Forall_impl; [exact H |]. by intros []. Qed.

Lemma drop_trace_no_create r evs :
  drop_trace r evs → Forall (λ ev, is_create_all ev = false) evs.
Proof.
  destruct 1 as [|e He|e evs He Hc|e e2 evs He He2 Hc|e e2 evs He He2 Hc];
    forall_split;
    eauto using fallback_events_no_create, cascade_trace_fallback_events.
Qed.

Lemma cascade_trace_head r evs :
  cascade_trace r evs → ∃ rc tl, evs = EvConnect rc :: tl.
Proof. destruct 1; by eexists _, _. Qed.

(** ** The control flow of [drop_db] and [reset_db], for any engine *)

Section Control.
Context {W Conn : Type} (E : Engine W Conn).

Lemma drop_db_since st :
  drop_trace (drop_db E st).1 (since st (drop_db E st).2).
Proof.
  destruct (drop_db_trace E st) as (evs & Hh & Ht).
  by rewrite (since_history _ _ _ Hh).
Qed.

Lemma cascade_drop_since st :
  cascade_trace (cascade_drop E st).1 (since st (cascade_drop E st).2).
Proof.
  destruct (cascade_drop_trace E st) as (evs & Hh & Ht).
  by rewrite (since_history _ _ _ Hh).
Qed.

Lemma drop_db_primary_returns st u w1 :
  drop_all E (world st) = (Returns u, w1) →
  drop_db E st =
    (Returns tt,
     mkState w1 (history st ++
       [EvDropAll (Returns tt);
        EvLog INFO "Database tables dropped successfully using drop_all."])).
Proof.
  intros H. unfold drop_db, try_except. unfold_M. rewrite H. destruct u. simpl.
  by rewrite <- app_assoc.
Qed.

Lemma drop_db_uncaught st e w1 :
  drop_all E (world st) = (Raises e, w1) → is_Exception e = false →
  drop_db E st = (Raises e, mkState w1 (history st ++ [EvDropAll (Raises e)])).
Proof.
  intros H He. unfold drop_db, try_except. unfold_M. rewrite H. simpl. by rewrite He.
Qed.

Lemma drop_db_primary_raises st e w1 :
  drop_all E (world st) = (Raises e, w1) → is_Exception e = true →
  drop_db E st =
    match cascade_drop E (fallback_start st e w1) with
    | (Returns a, st2) => (Returns a, st2)
    | (Raises e2, st2) =>
        if is_Exception e2
        then (Raises e2, mkState (world st2) (history st2 ++ [EvLog ERROR (error_msg e2)]))
        else (Raises e2, st2)
    end.
Proof.
  intros H He. unfold drop_db, try_except, fallback_start. unfold_M.
  rewrite H. simpl. rewrite He. rewrite <- app_assoc. simpl.
  fold (warning_msg e).
  destruct (cascade_drop E _) as [[a|e2] st2]; [done |].
  destruct (is_Exception e2); done.
Qed.

Lemma drop_db_head st :
  ∃ tl, since st (drop_db E st).2 = EvDropAll (drop_all E (world st)).1 :: tl.
Proof.
  destruct (drop_all E (world st)) as [[[]|e] w1] eqn:Hd; simpl.
  - rewrite (drop_db_primary_returns _ _ _ Hd). simpl. rewrite since_app. by eexists.
  - destruct (is_Exception e) eqn:He.
    + rewrite (drop_db_primary_raises _ _ _ Hd He).
      destruct (cascade_drop_trace E (fallback_start st e w1)) as (evs & Hh & _).
      destruct (cascade_drop E _) as [[a|e2] st2]; simpl in *.
      * erewrite since_history; [by eexists |]. rewrite Hh. simpl.
        by rewrite <- app_assoc.
      * destruct (is_Exception e2); simpl.
        -- erewrite since_history; [by eexists |]. rewrite Hh. simpl.
           by rewrite <- !app_assoc.
        -- erewrite since_history; [by eexists |]. rewrite Hh. simpl.
           by rewrite <- app_assoc.
    + rewrite (drop_db_uncaught _ _ _ Hd He). simpl. rewrite since_app. by eexists.
Qed.

(** C2.  The fallback runs exactly when the primary path raises an error:
    [engine.connect()] is called if and only if [drop_all] raised an
    [Exception]; and when [drop_all] returns, the run sends no statement at
    all, so the catalog query is never made. *)
Theorem fallback_iff_primary_raises (st : State W) :
  let evs := since st (drop_db E st).2 in
  ((∃ rc, EvConnect rc ∈ evs) ↔
   (∃ e, (drop_all E (world st)).1 = Raises e ∧ is_Exception e = true))
  ∧ ((∃ u, (drop_all E (world st)).1 = Returns u) → ∀ sql r, EvExecute sql r ∉ evs).
Proof.
  intros evs. subst evs.
  destruct (drop_db_head st) as [tl Hhd].
  pose proof (drop_db_since st) as Ht.
  destruct Ht as [|e He|e evs He Hc|e e2 evs He He2 Hc|e e2 evs He He2 Hc];
    injection Hhd as Hd Htl; rewrite <- Hd.
  - split.
    + split; [intros [rc Hin]; elem_inv Hin; done | by intros (e & ? & _)].
    + intros _ sql r Hin. elem_inv Hin; done.
  - split.
    + split; [intros [rc Hin]; elem_inv Hin; done |].
      intros (e' & [= <-] & He'). congruence.
    + by intros [u ?].
  - destruct (cascade_trace_head _ _ Hc) as (rc & tl' & ->). split.
    + split; [by exists e |]. intros _. exists rc. set_solver.
    + by intros [u ?].
  - destruct (cascade_trace_head _ _ Hc) as (rc & tl' & ->). split.
    + split; [by exists e |]. intros _. exists rc. set_solver.
    + by intros [u ?].
  - destruct (cascade_trace_head _ _ Hc) as (rc & tl' & ->). split.
    + split; [by exists e |]. intros _. exists rc. set_solver.
    + by intros [u ?].
Qed.

(** C3.  When the primary path fails and the fallback fails too, the
    fallback's exception is logged at error severity and raised on to the
    caller as it is: the error record closes the history, the exception is
    the one the last failing engine call of the fallback raised, and
    [drop_all] is not tried again. *)
Theorem fatal_fallback_reraised (st : State W) (e e2 : PyExc) (w1 : W) (st2 : State W) :
  drop_all E (world st) = (Raises e, w1) → is_Exception e = true →
  cascade_drop E (fallback_start st e w1) = (Raises e2, st2) →
  is_Exception e2 = true →
  drop_db E st =
    (Raises e2, mkState (world st2) (history st2 ++ [EvLog ERROR (error_msg e2)]))
  ∧ last_raised (since (fallback_start st e w1) st2) = Some e2
  ∧ ∀ r, EvDropAll r ∉ since (fallback_start st e w1) st2.
Proof.
  intros Hd He Hc He2.
  pose proof (cascade_drop_since (fallback_start st e w1)) as Ht.
  rewrite (drop_db_primary_raises _ _ _ Hd He). rewrite Hc in *. simpl in Ht.
  rewrite He2. split_and!.
  - done.
  - by apply cascade_trace_last_raised.
  - intros r Hin.
    pose proof (cascade_trace_fallback_events _ _ Ht) as Hq.
    rewrite Forall_forall in Hq. by apply Hq in Hin.
Qed.

(** C7.  When the primary path raises an error and the fallback succeeds,
    the failure is logged as a warning and goes no further: [drop_db]
    returns normally, with no error record. *)
Theorem primary_failure_swallowed (st : State W) (e : PyExc) (w1 : W) (st2 : State W) :
  drop_all E (world st) = (Raises e, w1) → is_Exception e = true →
  cascade_drop E (fallback_start st e w1) = (Returns tt, st2) →
  drop_db E st = (Returns tt, st2)
  ∧ EvLog WARNING (warning_msg e) ∈ since st st2
  ∧ ∀ msg, EvLog ERROR msg ∉ since st st2.
Proof.
  intros Hd He Hc.
  destruct (cascade_drop_trace E (fallback_start st e w1)) as (evs & Hh & Ht).
  rewrite Hc in Hh, Ht. simpl in Hh, Ht.
  assert (Hs : since st st2 =
               EvDropAll (Raises e) :: EvLog WARNING (warning_msg e) :: evs).
  { apply since_history. rewrite Hh. simpl. by rewrite <- app_assoc. }
  rewrite Hs. split_and!.
  - rewrite (drop_db_primary_raises _ _ _ Hd He). by rewrite Hc.
  - set_solver.
  - intros msg Hin. elem_inv Hin; try done.
    pose proof (cascade_trace_fallback_events _ _ Ht) as Hq.
    rewrite Forall_forall in Hq. by apply Hq in Hin.
Qed.

Lemma drop_db_history st :
  history (drop_db E st).2 = history st ++ since st (drop_db E st).2.
Proof.
  destruct (drop_db_trace E st) as (evs & Hh & _).
  by rewrite (since_history _ _ _ Hh).
Qed.

(** C4.  [reset_db] runs [drop_db], then [init_db].  An exception of
    [drop_db] is the exception of [reset_db], and [create_all] has not been
    called; when [drop_db] returns, what follows is one run of [init_db]:
    [create_all] is called once, after every event of the drop. *)
Theorem reset_db_drop_then_init (st : State W) :
  (∀ x st1, drop_db E (reset_start st) = (Raises x, st1) →
     reset_db E st = (Raises x, st1)
     ∧ ∀ r, EvCreateAll r ∉ since st st1)
  ∧ (∀ st1, drop_db E (reset_start st) = (Returns tt, st1) →
     reset_db E st = (init_db E ;; log INFO "Database reset complete.") st1
     ∧ ∃ tail,
         since st (reset_db E st).2 =
           (EvLog INFO "Resetting database..." :: since (reset_start st) st1)
           ++ EvCreateAll (create_all E (world st1)).1 :: tail
         ∧ (∀ r, EvCreateAll r ∉ since (reset_start st) st1)
         ∧ (∀ r, EvCreateAll r ∉ tail)).
Proof.
  pose proof (drop_db_since (reset_start st)) as Ht.
  pose proof (drop_db_history (reset_start st)) as Hh.
  assert (Hnc : ∀ r, EvCreateAll r ∉ since (reset_start st) (drop_db E (reset_start st)).2).
  { intros r Hin. apply drop_trace_no_create in Ht.
    rewrite Forall_forall in Ht. by apply Ht in Hin. }
  split.
  - intros x st1 Hd. rewrite Hd in *. simpl in *. split.
    + unfold reset_db. unfold_M. fold (reset_start st). by rewrite Hd.
    + intros r Hin.
      assert (Hs : since st st1 =
                   EvLog INFO "Resetting database..." :: since (reset_start st) st1).
      { apply since_history. rewrite Hh. simpl. by rewrite <- app_assoc. }
      rewrite Hs in Hin. elem_inv Hin; [done |]. by apply Hnc in Hin.
  - intros st1 Hd. rewrite Hd in *. simpl in *.
    assert (Hr : reset_db E st = (init_db E ;; log INFO "Database reset complete.") st1).
    { unfold reset_db. unfold_M. fold (reset_start st). by rewrite Hd. }
    split; [done |]. rewrite Hr. unfold init_db. unfold_M.
    destruct (create_all E (world st1)) as [[[]|e] w2]; simpl.
    + exists [EvLog INFO "Database tables created.";
              EvLog INFO "Database reset complete."].
      split_and!; [| done |].
      * apply since_history. simpl. rewrite Hh. simpl. by rewrite <- !app_assoc.
      * intros r Hin. elem_inv Hin; done.
    + exists []. split_and!; [| done |].
      * apply since_history. simpl. rewrite Hh. simpl. by rewrite <- !app_assoc.
      * intros r Hin. elem_inv Hin.
Qed.

(** C10.  In every run of [drop_db] a commit comes only after the drops:
    once a statement (the catalog query or a drop) has raised, the run
    holds no commit; and when there is a commit, the catalog query has
    answered and every table of its answer has had its drop statement run
    before the first commit. *)
Theorem commit_only_after_all_drops (st : State W) :
  let evs := since st (drop_db E st).2 in
  (∀ sql e, EvExecute sql (Raises e) ∈ evs → ∀ rc, EvCommit rc ∉ evs)
  ∧ (∀ rc, EvCommit rc ∈ evs →
       ∃ rows,
         EvExecute select_tables_sql (Returns rows) ∈ until_commit evs ∧
         ∀ row, row ∈ rows →
           ∃ rs, EvExecute (drop_table_sql (row0 row)) (Returns rs) ∈ until_commit evs).
Proof.
  intros evs. subst evs.
  pose proof (drop_trace_guarded _ _ (drop_db_since st)) as Hg. split.
  - intros sql e Hx rc Hin. destruct (Hg rc Hin) as [Hnf _]. by apply Hnf in Hx.
  - intros rc Hin. by destruct (Hg rc Hin) as [_ H].
Qed.

End Control.

(** ** The reference engine: statement text *)

Import Pg.

Lemma app_cons c s t : String c s +:+ t = String c (s +:+ t).
Proof. reflexivity. Qed.

Lemma app_nil s : EmptyString +:+ s = s.
Proof. reflexivity. Qed.

Lemma app_empty_r s : s +:+ EmptyString = s.
Proof. induction s as [|a s IH]; [done |]. rewrite app_cons. by rewrite IH. Qed.

Lemma snoc_app acc c s : (acc +:+ String c EmptyString) +:+ s = acc +:+ String c s.
Proof.
  induction acc as [|a acc IH]; [done |]. rewrite !app_cons. by rewrite IH.
Qed.

(** Inside the quotes, a name without a double quote is read as it is. *)
Lemma lex_quoted_body n acc rest :
  has_dquote n = false →
  lex_from (InQuoted acc) (n +:+ rest) = lex_from (InQuoted (acc +:+ n)) rest.
Proof.
  revert acc. induction n as [|c n IH]; intros acc Hq.
  - rewrite app_nil. by rewrite app_empty_r.
  - simpl in Hq. apply orb_false_iff in Hq as [Hc Hn].
    rewrite app_cons. simpl. rewrite Hc. rewrite (IH _ Hn).
    unfold snoc. by rewrite snoc_app.
Qed.

Lemma lex_drop_plain n :
  has_dquote n = false →
  lex (drop_table_sql n) =
    Some [Word "DROP"; Word "TABLE"; Word "IF"; Word "EXISTS"; QIdent n; Word "CASCADE"].
Proof.
  intros Hq. unfold lex, drop_table_sql, dq.
  rewrite !app_cons, !app_nil. simpl.
  change (idle_step (Ascii.ascii_of_nat 34)) with (InQuoted EmptyString).
  rewrite (lex_quoted_body _ _ _ Hq). rewrite app_nil. reflexivity.
Qed.

(** For a plain name the statement of line 42 is the drop of that name. *)
Lemma parse_drop_plain n :
  plain_name n = true → parse (drop_table_sql n) = Some (DropTable n).
Proof.
  unfold plain_name. intros [Hne Hq]%andb_true_iff.
  apply negb_true_iff in Hq.
  unfold parse. rewrite (lex_drop_plain _ Hq).
  rewrite Hne. by rewrite bool_decide_eq_true_2.
Qed.

(** The text of lines 34-37 asks for the tables of schema [public]. *)
Lemma parse_select : parse select_tables_sql = Some (SelectTables "public").
Proof. vm_compute. reflexivity. Qed.

Lemma exec_effect_plain path n view :
  plain_name n = true → exec_effect path (drop_table_sql n) view = drop_table path n view.
Proof. intros H. unfold exec_effect. by rewrite (parse_drop_plain _ H). Qed.

(** A double quote is no word character, so a word name is a plain one. *)
Lemma all_word_chars_no_dquote n : all_word_chars n = true → has_dquote n = false.
Proof.
  induction n as [|c n IH]; simpl; [done |].
  intros [Hc Hn]%andb_true_iff. rewrite (IH Hn), orb_false_r.
  apply bool_decide_eq_false. intros ->. vm_compute in Hc. discriminate.
Qed.

Lemma word_name_plain n : word_name n = true → plain_name n = true.
Proof.
  unfold word_name, plain_name. intros [Hne Hw]%andb_true_iff.
  by rewrite Hne, (all_word_chars_no_dquote _ Hw).
Qed.

(** ** The reference engine: the catalog *)

Lemma resolve_Some cat path n t :
  resolve cat path n = Some t → t ∈ cat ∧ t.2 = n ∧ t.1 ∈ path.
Proof.
  induction path as [|s path IH]; simpl; [done |].
  case_bool_decide as Hin.
  - intros [= <-]. split_and!; [done | done | left].
  - intros H. destruct (IH H) as (? & ? & ?). split_and!; [done | done | by right].
Qed.

Lemma resolve_None cat path n s :
  resolve cat path n = None → s ∈ path → (s, n) ∉ cat.
Proof.
  induction path as [|s' path IH]; simpl; intros H Hin.
  - by apply elem_of_nil in Hin.
  - case_bool_decide as Hc; [done |].
    apply elem_of_cons in Hin as [-> | Hin]; [done | by apply IH].
Qed.

Lemma resolve_is_Some cat path n s :
  s ∈ path → (s, n) ∈ cat → is_Some (resolve cat path n).
Proof.
  intros Hs Hin. destruct (resolve cat path n) eqn:Hr; [done |].
  by apply (resolve_None _ _ _ s) in Hr.
Qed.

Lemma drop_table_subseteq path n cat : drop_table path n cat ⊆ cat.
Proof.
  unfold drop_table. destruct (resolve cat path n); [| done].
  apply subseteq_difference_l. done.
Qed.

Lemma exec_effect_subseteq path sql view : exec_effect path sql view ⊆ view.
Proof.
  unfold exec_effect. destruct (parse sql) as [[s|n]|]; [done | | done].
  apply drop_table_subseteq.
Qed.

Lemma cascade_effect_subseteq path names view :
  cascade_effect path names view ⊆ view.
Proof.
  unfold cascade_effect. revert view.
  induction names as [|d names IH]; intros view; simpl; [done |].
  etrans; [apply IH | apply exec_effect_subseteq].
Qed.

Lemma elem_of_tables_of s cat n : n ∈ tables_of s cat ↔ (s, n) ∈ cat.
Proof.
  unfold tables_of. rewrite list_elem_of_fmap. split.
  - intros ([s' n'] & -> & Hin). apply elem_of_elements in Hin.
    apply elem_of_filter in Hin as [Hs Hin]. simpl in *. by subst.
  - intros Hin. exists (s, n). split; [done |].
    apply elem_of_elements. apply elem_of_filter. by split.
Qed.

Lemma map_row0_rows_of names : map row0 (rows_of names) = names.
Proof.
  unfold rows_of. induction names as [|n names IH]; [done |]. simpl. f_equal. exact IH.
Qed.

(** ** The reference engine: what each call does *)

Lemma with_plan_faults w : with_plan w (faults w) = w.
Proof. by destruct w. Qed.

(** A guarded call either raises the planned exception and leaves the
    database alone, or runs the operation with the rest of the plan. *)
Lemma guarded_inv {A} (op : World → outcome A * World) w r w' :
  guarded op w = (r, w') →
  (∃ e plan, next_fault w = Some e ∧ r = Raises e ∧ w' = with_plan w plan)
  ∨ (∃ plan, next_fault w = None ∧ op (with_plan w plan) = (r, w')).
Proof.
  unfold guarded, next_fault. destruct (faults w) as [|[e|] plan] eqn:Hf; intros H.
  - right. exists []. split; [done |]. rewrite <- Hf. by rewrite with_plan_faults.
  - left. exists e, plan. by injection H as <- <-.
  - right. by exists plan.
Qed.

Lemma guarded_no_fault {A} (op : World → outcome A * World) w :
  next_fault w = None → ∃ plan, guarded op w = op (with_plan w plan).
Proof.
  unfold guarded, next_fault. destruct (faults w) as [|[e|] plan] eqn:Hf; intros H.
  - exists []. rewrite <- Hf. by rewrite with_plan_faults.
  - done.
  - by exists plan.
Qed.

Lemma pg_drop_all_spec reg w r w' :
  pg_drop_all reg w = (r, w') →
  search_path w' = search_path w ∧
  match r with
  | Returns _ => catalog w' = drop_tables (search_path w) reg (catalog w)
  | Raises _ => catalog w' = catalog w
  end.
Proof.
  intros [(e & plan & _ & -> & ->) | (plan & _ & H)]%guarded_inv; [done |].
  by injection H as <- <-.
Qed.

Lemma pg_create_all_spec reg w r w' :
  pg_create_all reg w = (r, w') →
  search_path w' = search_path w ∧
  match r with
  | Returns _ => create_tables (search_path w) reg (catalog w) = Some (catalog w')
  | Raises _ => catalog w' = catalog w
  end.
Proof.
  intros [(e & plan & _ & -> & ->) | (plan & _ & H)]%guarded_inv; [done |].
  simpl in H.
  destruct (create_tables (search_path w) reg (catalog w)) as [cat|];
    by injection H as <- <-.
Qed.

Lemma pg_connect_spec w r w' :
  pg_connect w = (r, w') →
  search_path w' = search_path w ∧ catalog w' = catalog w ∧
  match r with
  | Returns _ => txn w' = Some (catalog w)
  | Raises _ => True
  end.
Proof.
  intros [(e & plan & _ & -> & ->) | (plan & _ & H)]%guarded_inv; [done |].
  by injection H as <- <-.
Qed.

Lemma pg_execute_spec conn sql w r w' :
  pg_execute conn sql w = (r, w') →
  search_path w' = search_path w ∧ catalog w' = catalog w ∧
  match r with
  | Returns rows =>
      ∃ view, txn w = Some view ∧
        txn w' = Some (exec_effect (search_path w) sql view) ∧
        ∀ s, parse sql = Some (SelectTables s) → rows = rows_of (tables_of s view)
  | Raises _ => txn w' = txn w
  end.
Proof.
  intros [(e & plan & _ & -> & ->) | (plan & _ & H)]%guarded_inv; [done |].
  simpl in H. destruct (txn w) as [view|] eqn:Ht; [| by injection H as <- <-].
  unfold exec_effect.
  destruct (parse sql) as [[s|n]|]; injection H as <- <-; simpl.
  - split_and!; [done | done |]. exists view. split_and!; [done | done |].
    by intros ? [= ->].
  - split_and!; [done | done |]. exists view. by split_and!.
  - done.
Qed.

Lemma pg_commit_spec conn w r w' :
  pg_commit conn w = (r, w') →
  search_path w' = search_path w ∧
  match r with
  | Returns _ => ∃ view, txn w = Some view ∧ catalog w' = view
  | Raises _ => catalog w' = catalog w
  end.
Proof.
  intros [(e & plan & _ & -> & ->) | (plan & _ & H)]%guarded_inv; [done |].
  simpl in H. destruct (txn w) as [view|] eqn:Ht; injection H as <- <-; simpl.
  - split; [done |]. by exists view.
  - done.
Qed.

Lemma pg_close_spec conn w r w' :
  pg_close conn w = (r, w') →
  search_path w' = search_path w ∧ catalog w' = catalog w.
Proof.
  intros [(e & plan & _ & -> & ->) | (plan & _ & H)]%guarded_inv; [done |].
  by injection H as <- <-.
Qed.

(** ** The reference engine: runs of the module *)

Section PgRuns.
Context (reg : list string).

(** The loop leaves the committed catalog alone and works on the view. *)
Lemma pg_drop_loop names st view :
  txn (world st) = Some view →
  let res := drop_loop (engine reg) tt names st in
  search_path (world res.2) = search_path (world st) ∧
  catalog (world res.2) = catalog (world st) ∧
  match res.1 with
  | Returns _ =>
      txn (world res.2) = Some (cascade_effect (search_path (world st)) names view)
  | Raises _ => True
  end.
Proof.
  revert st view. induction names as [|d names IH]; intros st view Ht; [done |].
  unfold drop_loop. simpl. unfold_M.
  destruct (pg_execute tt (drop_table_sql d) (world st)) as [[rows|e] w1] eqn:Hx;
    simpl; pose proof (pg_execute_spec _ _ _ _ _ Hx) as (Hp & Hc & Hr); [| done].
  destruct Hr as (view' & Hv & Ht1 & _). rewrite Ht in Hv. injection Hv as <-.
  pose proof (IH (mkState w1 (history st ++ [EvExecute (drop_table_sql d) (Returns rows)]))
                 _ Ht1) as (Hp2 & Hc2 & Hr2).
  unfold drop_loop in Hp2, Hc2, Hr2. unfold_M.
  split_and!; [congruence | congruence |].
  destruct (for_each names _ _) as [[u|e] st2]; [| done]. simpl in *.
  rewrite Hr2. by rewrite Hp.
Qed.

(** The [with] statement changes the catalog at one point only, the commit,
    and then to the view after every drop statement. *)
Lemma pg_cascade_drop st :
  let res := cascade_drop (engine reg) st in
  search_path (world res.2) = search_path (world st) ∧
  (catalog (world res.2) = catalog (world st) ∨
   catalog (world res.2) = swept (world st)) ∧
  (res.1 = Returns tt → catalog (world res.2) = swept (world st)).
Proof.
  unfold cascade_drop, with_connect. unfold_M.
  destruct (pg_connect (world st)) as [[[]|e] w1] eqn:Hc; simpl;
    pose proof (pg_connect_spec _ _ _ Hc) as (Hp1 & Hc1 & Ht1);
    [| split_and!; [done | by left | done]].
  unfold cascade_body. unfold_M.
  destruct (pg_execute tt select_tables_sql w1) as [[rows|e] w2] eqn:Hs; simpl;
    pose proof (pg_execute_spec _ _ _ _ _ Hs) as (Hp2 & Hc2 & Hr2).
  - destruct Hr2 as (view & Hv & Ht2 & Hrows).
    rewrite Ht1 in Hv. injection Hv as <-.
    rewrite (Hrows _ parse_select). rewrite map_row0_rows_of.
    unfold exec_effect in Ht2. rewrite parse_select in Ht2.
    pose proof (pg_drop_loop (tables_of "public" (catalog (world st)))
      (mkState w2 ((history st ++ [EvConnect (Returns tt)]) ++
         [EvExecute select_tables_sql
            (Returns (rows_of (tables_of "public" (catalog (world st)))))]))
      _ Ht2) as (Hp3 & Hc3 & Hr3).
    unfold drop_loop in Hp3, Hc3, Hr3. unfold_M.
    destruct (for_each (tables_of "public" (catalog (world st))) _ _)
      as [[u|e] st3]; simpl in *.
    + destruct (pg_commit tt (world st3)) as [[[]|e] w4] eqn:Hm; simpl;
        pose proof (pg_commit_spec _ _ _ _ Hm) as (Hp4 & Hr4).
      * destruct Hr4 as (view & Hv & Hc4). rewrite Hr3 in Hv. injection Hv as <-.
        assert (Hsw : catalog w4 = swept (world st)).
        { rewrite Hc4. unfold swept. by rewrite Hp2, Hp1. }
        destruct (pg_close tt w4) as [[[]|e'] w5] eqn:Hx; simpl;
          pose proof (pg_close_spec _ _ _ _ Hx) as (Hp5 & Hc5);
          (split_and!; [congruence | right; congruence | intros; congruence]).
      * destruct (pg_close tt w4) as [[[]|e'] w5] eqn:Hx; simpl;
          pose proof (pg_close_spec _ _ _ _ Hx) as (Hp5 & Hc5);
          (split_and!; [congruence | left; congruence | done]).
    + destruct (pg_close tt (world st3)) as [[[]|e'] w5] eqn:Hx; simpl;
        pose proof (pg_close_spec _ _ _ _ Hx) as (Hp5 & Hc5);
        (split_and!; [congruence | left; congruence | done]).
  - destruct (pg_close tt w2) as [[[]|e'] w5] eqn:Hx; simpl;
      pose proof (pg_close_spec _ _ _ _ Hx) as (Hp5 & Hc5);
      (split_and!; [congruence | left; congruence | done]).
Qed.

Lemma swept_with_plan w plan : swept (with_plan w plan) = swept w.
Proof. done. Qed.

(** What [drop_db] does to the catalog, by the way [drop_all] ends. *)
Lemma pg_drop_db st :
  let res := drop_db (engine reg) st in
  search_path (world res.2) = search_path (world st) ∧
  match (pg_drop_all reg (world st)).1 with
  | Returns _ =>
      res.1 = Returns tt ∧
      catalog (world res.2) =
        drop_tables (search_path (world st)) reg (catalog (world st))
  | Raises e =>
      if is_Exception e
      then (catalog (world res.2) = catalog (world st) ∨
            catalog (world res.2) = swept (world st)) ∧
           (res.1 = Returns tt → catalog (world res.2) = swept (world st))
      else res.1 = Raises e ∧ catalog (world res.2) = catalog (world st)
  end.
Proof.
  destruct (pg_drop_all reg (world st)) as [[[]|e] w1] eqn:Hd; simpl;
    pose proof (pg_drop_all_spec _ _ _ _ Hd) as (Hp & Hc).
  - rewrite (drop_db_primary_returns (engine reg) st tt w1 Hd). done.
  - destruct (is_Exception e) eqn:He.
    + rewrite (drop_db_primary_raises (engine reg) st e w1 Hd He).
      pose proof (pg_cascade_drop (fallback_start st e w1)) as (Hp2 & Hc2 & Hr2).
      assert (Hsw : swept w1 = swept (world st)).
      { unfold swept. by rewrite Hp, Hc. }
      simpl in *. rewrite Hsw, Hc in *.
      destruct (cascade_drop (engine reg) (fallback_start st e w1))
        as [[[]|e2] st2]; simpl in *.
      * split_and!; [congruence | done | by intros _; apply Hr2].
      * destruct (is_Exception e2); simpl;
          (split_and!; [congruence | done | done]).
    + rewrite (drop_db_uncaught (engine reg) st e w1 Hd He). done.
Qed.

End PgRuns.

(** ** The reference engine: what the two drop paths leave *)

Lemma tables_of_nil s cat : (∀ n, (s, n) ∉ cat) → tables_of s cat = [].
Proof.
  intros H. destruct (tables_of s cat) as [|n l] eqn:Heq; [done |].
  exfalso. apply (H n). apply elem_of_tables_of. rewrite Heq. left.
Qed.

Lemma swept_subseteq w : swept w ⊆ catalog w.
Proof. apply cascade_effect_subseteq. Qed.

Lemma drop_table_head s path n cat m :
  (s, m) ∈ drop_table (s :: path) n cat ↔ (s, m) ∈ cat ∧ m ≠ n.
Proof.
  unfold drop_table. simpl. case_bool_decide as Hin.
  - rewrite elem_of_difference, elem_of_singleton. split.
    + intros [? Hne]. split; [done |]. by intros ->.
    + intros [? Hne]. split; [done |]. by intros [= ->].
  - destruct (resolve cat path n) as [t|] eqn:Hr.
    + destruct (resolve_Some _ _ _ _ Hr) as (Ht & Hn & _).
      rewrite elem_of_difference, elem_of_singleton. split.
      * intros [? Hne]. split; [done |]. by intros ->.
      * intros [? Hne]. split; [done |]. intros <-. simpl in *. done.
    + split; [| by intros []]. intros H. split; [done |]. by intros ->.
Qed.

(** With [s] first on the path, the drop statement of a plain name sent
    among others leaves no table of that name in [s]. *)
Lemma cascade_effect_drops s path names view d :
  d ∈ names → plain_name d = true → (s, d) ∉ cascade_effect (s :: path) names view.
Proof.
  unfold cascade_effect. revert view.
  induction names as [|d' names IH]; intros view Hin Hpl; simpl.
  - by apply elem_of_nil in Hin.
  - destruct (decide (d = d')) as [<- | Hne].
    + intros Hd. apply (cascade_effect_subseteq (s :: path) names) in Hd.
      rewrite (exec_effect_plain _ _ _ Hpl) in Hd.
      by apply drop_table_head in Hd as [_ ?].
    + apply IH; [| done]. by apply elem_of_cons in Hin as [? | ?].
Qed.

(** A run of the fallback that commits leaves no public table with a word
    name, with [public] first on the path. *)
Lemma swept_word_name w path n :
  search_path w = "public" :: path → word_name n = true → ("public", n) ∉ swept w.
Proof.
  intros Hp Hw Hin. pose proof (swept_subseteq w _ Hin) as Hcat.
  revert Hin. unfold swept. rewrite Hp.
  apply cascade_effect_drops; [by apply elem_of_tables_of | by apply word_name_plain].
Qed.

(** With [s] first on the path, [drop_all] leaves in [s] exactly the tables
    the registry does not name. *)
Lemma drop_tables_head s path reg cat m :
  (s, m) ∈ drop_tables (s :: path) reg cat ↔ (s, m) ∈ cat ∧ m ∉ reg.
Proof.
  unfold drop_tables. induction reg as [|n reg IH]; simpl.
  - split; [intros H; split; [done | by intros ?%elem_of_nil] | by intros []].
  - rewrite drop_table_head, IH, not_elem_of_cons. naive_solver.
Qed.


(** ** The statements of the fallback, for any engine *)

Section Statements.
Context {W Conn : Type} (E : Engine W Conn).




End Statements.

(** ** The reference engine: creating the registered tables *)

Lemma visible_iff cat path n :
  visible cat path n ↔ ∃ s, s ∈ path ∧ (s, n) ∈ cat.
Proof.
  unfold visible. split.
  - intros [t Ht]. destruct (resolve_Some _ _ _ _ Ht) as (Hin & Hn & Hs).
    exists t.1. split; [done |]. destruct t; simpl in *; by subst.
  - intros (s & Hs & Hin). by eapply resolve_is_Some.
Qed.

Lemma visible_mono cat cat' path n :
  cat ⊆ cat' → visible cat path n → visible cat' path n.
Proof.
  rewrite !visible_iff. intros Hsub (s & Hs & Hin). exists s. split; [done |].
  by apply Hsub.
Qed.

Lemma create_table_spec path n cat cat' :
  create_table path n cat = Some cat' →
  cat ⊆ cat' ∧ visible cat' path n ∧
  ∀ t, t ∈ cat' → t ∈ cat ∨ (t.2 = n ∧ head path = Some t.1).
Proof.
  unfold create_table. destruct (resolve cat path n) as [t|] eqn:Hr.
  - intros [= <-]. split_and!; [done | | by left].
    unfold visible. by rewrite Hr.
  - destruct path as [|s path]; [done |]. intros [= <-]. split_and!.
    + apply union_subseteq_r.
    + apply visible_iff. exists s. split; [left |].
      apply elem_of_union. left. by apply elem_of_singleton.
    + intros t [->%elem_of_singleton | Hin]%elem_of_union; [by right | by left].
Qed.

Lemma create_tables_spec path reg cat cat' :
  create_tables path reg cat = Some cat' →
  cat ⊆ cat' ∧ (∀ n, n ∈ reg → visible cat' path n) ∧
  ∀ t, t ∈ cat' → t ∈ cat ∨ (t.2 ∈ reg ∧ head path = Some t.1).
Proof.
  revert cat. induction reg as [|n reg IH]; intros cat; simpl.
  - intros [= <-]. split_and!; [done | by intros n ?%elem_of_nil | by left].
  - destruct (create_table path n cat) as [cat1|] eqn:H1; [| done]. simpl.
    intros H2. destruct (create_table_spec _ _ _ _ H1) as (Hs1 & Hv1 & Hn1).
    destruct (IH _ H2) as (Hs2 & Hv2 & Hn2). split_and!.
    + by etrans.
    + intros m [-> | Hm]%elem_of_cons; [by eapply visible_mono | by apply Hv2].
    + intros t Ht. destruct (Hn2 t Ht) as [Hin | [Hreg Hh]].
      * destruct (Hn1 t Hin) as [? | [<- Hh]]; [by left |].
        right. split; [left | done].
      * right. split; [by right | done].
Qed.

(** Tables that are all visible are not created again. *)
Lemma create_tables_visible path reg cat :
  (∀ n, n ∈ reg → visible cat path n) → create_tables path reg cat = Some cat.
Proof.
  induction reg as [|n reg IH]; intros Hv; simpl; [done |].
  unfold create_table. destruct (Hv n) as [t Ht]; [left |]. rewrite Ht. simpl.
  apply IH. intros m Hm. apply Hv. by right.
Qed.



Lemma init_db_unfold {W Conn} (E : Engine W Conn) st :
  init_db E st =
    match create_all E (world st) with
    | (Returns _, w) =>
        (Returns tt,
         mkState w (history st ++ [EvCreateAll (Returns tt);
                                   EvLog INFO "Database tables created."]))
    | (Raises e, w) => (Raises e, mkState w (history st ++ [EvCreateAll (Raises e)]))
    end.
Proof.
  unfold init_db. unfold_M. destruct (create_all E (world st)) as [[[]|e] w]; simpl.
  - by rewrite <- app_assoc.
  - done.
Qed.

Lemma reset_db_unfold {W Conn} (E : Engine W Conn) st :
  reset_db E st =
    match drop_db E (reset_start st) with
    | (Returns _, st1) => (init_db E ;; log INFO "Database reset complete.") st1
    | (Raises x, st1) => (Raises x, st1)
    end.
Proof.
  unfold reset_db. unfold_M. fold (reset_start st).
  by destruct (drop_db E (reset_start st)) as [[[]|x] st1].
Qed.


(** Settle a closed decidable goal by evaluation. *)
Ltac by_compute :=
  match goal with
  | |- ?P => apply (@bool_decide_unpack P _); vm_compute; exact I
  end.


(** ** The catalog after [drop_db], [init_db] and [reset_db] *)

(** C1 (as amended).  After [drop_db] returns, the public table list of the
    catalog is empty, with [public] first on the search path, when either
    the primary path ran and every public table is registered, or the
    fallback ran and every public table has a name of letters, digits and
    underscores. *)
Theorem drop_db_empties_public (reg : list string) (st st' : State World)
    (path : list string) :
  search_path (world st) = "public" :: path →
  drop_db (engine reg) st = (Returns tt, st') →
  match (pg_drop_all reg (world st)).1 with
  | Returns _ => ∀ n, n ∈ public_tables (world st) → n ∈ reg
  | Raises _ => Forall (λ d, word_name d = true) (public_tables (world st))
  end →
  public_tables (world st') = [].
Proof.
  intros Hp Hrun Hyp. pose proof (pg_drop_db reg st) as [_ Hc].
  rewrite Hrun in Hc. simpl in Hc.
  apply tables_of_nil. intros n Hin.
  destruct (pg_drop_all reg (world st)).1 as [u|e].
  - destruct Hc as [_ Hc]. rewrite Hc, Hp in Hin.
    apply drop_tables_head in Hin as [Hin Hreg]. apply Hreg, Hyp.
    by apply elem_of_tables_of.
  - destruct (is_Exception e); [| by destruct Hc].
    destruct Hc as [_ Hc]. rewrite (Hc eq_refl) in Hin.
    apply (swept_word_name _ _ n Hp); [| done].
    apply (proj1 (Forall_forall _ _) Hyp).
    by apply elem_of_tables_of, swept_subseteq.
Qed.

Lemma drop_db_empties_public_witness :
  public_tables
    (world (drop_db (engine sample_registry)
              (start legacy_catalog ["public"] [Some lock_timeout])).2) = [].
Proof.
  apply (drop_db_empties_public sample_registry
           (start legacy_catalog ["public"] [Some lock_timeout]) _ []).
  - reflexivity.
  - vm_compute. reflexivity.
  - vm_compute. repeat constructor.
Defined.

(** C1, as stated, fails: [drop_all] leaves a table the registry does not
    name, and the run returns without raising. *)
Lemma drop_db_keeps_unregistered_table :
  ∃ st',
    drop_db (engine sample_registry) (start legacy_catalog ["public"] []) =
      (Returns tt, st')
    ∧ public_tables (world st') = ["legacy"].
Proof. eexists. split; vm_compute; reflexivity. Qed.

(** C5.  [init_db] twice is [init_db] once: a second call that the engine
    lets through returns and leaves the table set of the first; and on a
    database in which every registered table is there already, the call
    returns and changes nothing. *)
Theorem init_db_idempotent (reg : list string) :
  (∀ st st1 : State World,
     init_db (engine reg) st = (Returns tt, st1) →
     next_fault (world st1) = None →
     ∃ st2, init_db (engine reg) st1 = (Returns tt, st2) ∧
            catalog (world st2) = catalog (world st1))
  ∧ (∀ st : State World,
     (∀ n, n ∈ reg → visible (catalog (world st)) (search_path (world st)) n) →
     next_fault (world st) = None →
     ∃ st', init_db (engine reg) st = (Returns tt, st') ∧
            catalog (world st') = catalog (world st)).
Proof.
  assert (Hsafe : ∀ st : State World,
     (∀ n, n ∈ reg → visible (catalog (world st)) (search_path (world st)) n) →
     next_fault (world st) = None →
     ∃ st', init_db (engine reg) st = (Returns tt, st') ∧
            catalog (world st') = catalog (world st)).
  { intros st Hv Hf. rewrite init_db_unfold. simpl. unfold pg_create_all.
    destruct (guarded_no_fault
      (λ w, match create_tables (search_path w) reg (catalog w) with
            | Some cat => (Returns tt, mkWorld cat (search_path w) (txn w) (faults w))
            | None => (Raises (programming_error
                         "no schema has been selected to create in"), w)
            end) _ Hf) as [plan ->].
    simpl. rewrite (create_tables_visible _ _ _ Hv). by eexists. }
  split; [| done].
  intros st st1 H1 Hf. apply Hsafe; [| done].
  rewrite init_db_unfold in H1. simpl in H1.
  destruct (pg_create_all reg (world st)) as [[[]|e] w1] eqn:Hc; [| done].
  injection H1 as <-. simpl.
  destruct (pg_create_all_spec _ _ _ _ Hc) as (Hp & Hct). rewrite Hp.
  by destruct (create_tables_spec _ _ _ _ Hct) as (_ & Hv & _).
Qed.




(** ** The fallback on the reference engine *)





(** C9.  The fallback lists the tables of [public] (line 36) but drops by
    bare name (line 42), so the table a statement drops need not be the
    table the query found.  With a schema [app] before [public] on the
    search path and a table [users] in both, the one statement of the run,
    sent for the listed [public.users], drops [app.users]: a table outside
    [public] is gone, the listed one stays, and [drop_db] returns with
    one table reported dropped. *)
Lemma fallback_drops_shadowing_table :
  ∃ st',
    drop_db (engine sample_registry)
      (start shadowed_catalog ["app"; "public"] [Some lock_timeout]) =
      (Returns tt, st')
    ∧ history st' =
        [EvDropAll (Raises lock_timeout);
         EvLog WARNING (warning_msg lock_timeout);
         EvConnect (Returns tt);
         EvExecute select_tables_sql (Returns (rows_of ["users"]));
         EvExecute (drop_table_sql "users") (Returns []);
         EvCommit (Returns tt);
         EvLog INFO "Dropped 1 tables using CASCADE.";
         EvClose (Returns tt)]
    ∧ (("app", "users") ∉ catalog (world st'))
    ∧ ("public", "users") ∈ catalog (world st').
Proof.
  eexists. split_and!.
  - vm_compute. reflexivity.
  - vm_compute. reflexivity.
  - by_compute.
  - by_compute.
Qed.

(** ** Runs of the control-flow theorems *)

Lemma fatal_fallback_reraised_witness :
  let E := engine sample_registry in
  let st := start sample_catalog ["public"] [Some lock_timeout; Some connection_lost] in
  let w1 := (drop_all E (world st)).2 in
  let st2 := (cascade_drop E (fallback_start st lock_timeout w1)).2 in
  drop_db E st =
    (Raises connection_lost,
     mkState (world st2) (history st2 ++ [EvLog ERROR (error_msg connection_lost)]))
  ∧ last_raised (since (fallback_start st lock_timeout w1) st2) = Some connection_lost
  ∧ ∀ r, EvDropAll r ∉ since (fallback_start st lock_timeout w1) st2.
Proof.
  intros E st w1 st2.
  apply (fatal_fallback_reraised E st lock_timeout connection_lost w1 st2);
    vm_compute; reflexivity.
Defined.

Lemma primary_failure_swallowed_witness :
  let E := engine sample_registry in
  let st := start sample_catalog ["public"] [Some lock_timeout] in
  let w1 := (drop_all E (world st)).2 in
  let st2 := (cascade_drop E (fallback_start st lock_timeout w1)).2 in
  drop_db E st = (Returns tt, st2)
  ∧ EvLog WARNING (warning_msg lock_timeout) ∈ since st st2
  ∧ ∀ msg, EvLog ERROR msg ∉ since st st2.
Proof.
  intros E st w1 st2.
  apply (primary_failure_swallowed E st lock_timeout w1 st2);
    vm_compute; reflexivity.
Defined.

Lemma fallback_iff_primary_raises_witness :
  ∃ rc, EvConnect rc ∈
    since (start sample_catalog ["public"] [Some lock_timeout])
          (drop_db (engine sample_registry)
             (start sample_catalog ["public"] [Some lock_timeout])).2.
Proof.
  apply (proj2 (proj1 (fallback_iff_primary_raises (engine sample_registry)
                         (start sample_catalog ["public"] [Some lock_timeout])))).
  exists lock_timeout. split; vm_compute; reflexivity.
Defined.

Lemma reset_db_drop_then_init_witness :
  let E := engine sample_registry in
  let st := start sample_catalog ["public"] [Some lock_timeout; Some connection_lost] in
  let st1 := (drop_db E (reset_start st)).2 in
  reset_db E st = (Raises connection_lost, st1)
  ∧ ∀ r, EvCreateAll r ∉ since st st1.
Proof.
  intros E st st1.
  apply (proj1 (reset_db_drop_then_init E st) connection_lost st1).
  vm_compute. reflexivity.
Defined.

Lemma init_db_idempotent_witness :
  let E := engine sample_registry in
  let st1 := (init_db E (start ∅ ["public"] [])).2 in
  ∃ st2, init_db E st1 = (Returns tt, st2) ∧ catalog (world st2) = catalog (world st1).
Proof.
  intros E st1.
  apply (proj1 (init_db_idempotent sample_registry) (start ∅ ["public"] []) st1);
    vm_compute; reflexivity.
Defined.

Lemma commit_only_after_all_drops_witness :
  ¬ ∃ rc, EvCommit rc ∈
    since (start sample_catalog ["public"] [Some lock_timeout; None; None; Some connection_lost])
          (drop_db (engine sample_registry)
             (start sample_catalog ["public"]
                    [Some lock_timeout; None; None; Some connection_lost])).2.
Proof.
  intros [rc Hrc]. revert Hrc.
  apply (proj1 (commit_only_after_all_drops (engine sample_registry)
                  (start sample_catalog ["public"]
                         [Some lock_timeout; None; None; Some connection_lost]))
               (drop_table_sql "orders") connection_lost).
  by_compute.
Defined.

(** * Further properties of the module *)

(** ** Exceptions and the log, for any engine *)

Lemma last_raised_app pre evs x :
  last_raised evs = Some x → last_raised (pre ++ evs) = Some x.
Proof.
  unfold last_raised. intros H. rewrite omap_app, last_app. by rewrite H.
Qed.

Lemma drops_ok_statement_events tables evs :
  drops_ok tables evs → Forall statement_event evs.
Proof.
  induction 1 as [|t ev ts evs [rows ->] _ IH]; constructor; done.
Qed.

Lemma body_trace_statement_events r evs :
  body_trace r evs → Forall statement_event evs.
Proof.
  destruct 1 as [e|rows gone t rest dropped e Ht Hd|rows dropped e Hd|rows dropped Hd];
    forall_split; eauto using drops_ok_statement_events; done.
Qed.

Lemma body_trace_returns_quiet evs :
  body_trace (Returns tt) evs → omap raised_by evs = [].
Proof.
  inversion 1 as [| | |rows dropped Hd]; subst.
  change (omap raised_by (dropped ++
            [EvCommit (Returns tt); EvLog INFO (dropped_msg (map row0 rows))]) = []).
  rewrite omap_app. by rewrite (drops_ok_quiet _ _ Hd).
Qed.

Lemma cascade_trace_returns_quiet evs :
  cascade_trace (Returns tt) evs → omap raised_by evs = [].
Proof.
  inversion 1 as [|r evs' Hb|]; subst.
  change (omap raised_by (evs' ++ [EvClose (Returns tt)]) = []).
  rewrite omap_app. by rewrite (body_trace_returns_quiet _ Hb).
Qed.

Section Exceptions.
Context {W Conn : Type} (E : Engine W Conn).

(** X1.  [drop_db] raises nothing of its own: an exception that leaves it
    is the one raised by the last engine call that failed. *)
Theorem drop_db_raises_engine_exception (st st' : State W) (x : PyExc) :
  drop_db E st = (Raises x, st') →
  last_raised (since st st') = Some x.
Proof.
  intros Hrun. pose proof (drop_db_since E st) as Ht. rewrite Hrun in Ht.
  simpl in Ht.
  inversion Ht as [|e He|e evs He Hc|e e2 evs He He2 Hc|e e2 evs He He2 Hc]; subst.
  - done.
  - apply (last_raised_app [_; _]).
    rewrite last_raised_quiet_snoc by done. by apply cascade_trace_last_raised.
  - apply (last_raised_app [_; _]). by apply cascade_trace_last_raised.
Qed.

(** X2.  A run of [drop_db] that returns has seen no engine call fail, or
    one only: [drop_all], with an [Exception] that is on record as a
    warning. *)
Theorem drop_db_returns_after_logged_failure (st st' : State W) :
  drop_db E st = (Returns tt, st') →
  omap raised_by (since st st') = []
  ∨ ∃ e, is_Exception e = true ∧
         omap raised_by (since st st') = [e] ∧
         (drop_all E (world st)).1 = Raises e ∧
         EvLog WARNING (warning_msg e) ∈ since st st'.
Proof.
  intros Hrun. pose proof (drop_db_since E st) as Ht.
  destruct (drop_db_head E st) as [tl Hhd].
  rewrite Hrun in Ht, Hhd. simpl in Ht, Hhd.
  remember (since st st') as evs eqn:Hevs.
  remember (Returns tt) as rt eqn:Hrt.
  destruct Ht as [|e He|e evs He Hc|e e2 evs He He2 Hc|e e2 evs He He2 Hc].
  - by left.
  - done.
  - right. exists e. injection Hhd as Hd _.
    split_and!; [done | | done | right; left].
    change (e :: omap raised_by evs = [e]).
    by rewrite (cascade_trace_returns_quiet _ Hc).
  - done.
  - done.
Qed.

(** X3.  An exception that is not an [Exception] is never logged as an
    error; raised by [drop_all], it leaves [drop_db] at once: no warning,
    no connection, no statement. *)
Theorem non_exception_passes_through (st st' : State W) (x : PyExc) :
  drop_db E st = (Raises x, st') →
  is_Exception x = false →
  (∀ msg, EvLog ERROR msg ∉ since st st')
  ∧ ((drop_all E (world st)).1 = Raises x → since st st' = [EvDropAll (Raises x)]).
Proof.
  intros Hrun Hx. pose proof (drop_db_since E st) as Ht.
  destruct (drop_db_head E st) as [tl Hhd].
  rewrite Hrun in Ht, Hhd. simpl in Ht, Hhd.
  remember (since st st') as evs eqn:Hevs.
  remember (Raises x) as rx eqn:Hrx.
  destruct Ht as [|e He|e evs He Hc|e e2 evs He He2 Hc|e e2 evs He He2 Hc];
    try done; injection Hrx as ->.
  - split; [| done]. intros msg Hin. elem_inv Hin. done.
  - congruence.
  - split.
    + intros msg Hin. elem_inv Hin; try done.
      pose proof (cascade_trace_fallback_events _ _ Hc) as Hq.
      rewrite Forall_forall in Hq. by apply Hq in Hin.
    + injection Hhd as Hd _. rewrite <- Hd. intros [= ->]. congruence.
Qed.

(** X4.  [drop_all] is called once in every run of [drop_db], before
    anything else: the primary path is never retried. *)
Theorem drop_all_called_once_first (st : State W) :
  ∃ tl,
    since st (drop_db E st).2 = EvDropAll (drop_all E (world st)).1 :: tl
    ∧ ∀ r, EvDropAll r ∉ tl.
Proof.
  destruct (drop_db_head E st) as [tl Hhd]. exists tl. split; [done |].
  pose proof (drop_db_since E st) as Ht. rewrite Hhd in Ht.
  assert (Hfb : ∀ evs r, Forall fallback_event evs → EvDropAll r ∉ evs).
  { intros evs r Hq Hin. rewrite Forall_forall in Hq. by apply Hq in Hin. }
  intros r Hin.
  inversion Ht as [|e He|e evs He Hc|e e2 evs He He2 Hc|e e2 evs He He2 Hc]; subst;
    elem_inv Hin; try done;
    by eapply Hfb; [eapply cascade_trace_fallback_events |].
Qed.

End Exceptions.

(** ** The connection of the fallback, for any engine *)

Lemma count_where_app p l r :
  count_where p (l ++ r) = count_where p l + count_where p r.
Proof. unfold count_where. by rewrite List.filter_app, length_app. Qed.

Lemma count_where_cons p ev l :
  count_where p (ev :: l) = (if p ev then 1 else 0) + count_where p l.
Proof. unfold count_where. simpl. by destruct (p ev). Qed.

Lemma count_where_quiet p l :
  Forall (λ ev, p ev = false) l → count_where p l = 0.
Proof.
  unfold count_where. induction 1 as [|ev l Hev _ IH]; [done |].
  simpl. by rewrite Hev.
Qed.

Lemma after_close_app_quiet l r :
  Forall (λ ev, is_close ev = false) l → after_close (l ++ r) = after_close r.
Proof. induction 1 as [|ev l Hev _ IH]; [done |]. simpl. by rewrite Hev. Qed.

Lemma statement_events_not_close evs :
  Forall statement_event evs → Forall (λ ev, is_close ev = false) evs.
Proof. intros H. eapply Forall_impl; [exact H |]. by intros [| | | | | |[]]. Qed.

Lemma statement_events_not_opened evs :
  Forall statement_event evs → Forall (λ ev, is_opened ev = false) evs.
Proof. intros H. eapply Forall_impl; [exact H |]. by intros [| | | | | |[]]. Qed.

(** The [with] statement closes the connection it opened, once, and does
    nothing on it afterwards, whatever follows outside it. *)
Lemma cascade_trace_released r evs post :
  cascade_trace r evs →
  Forall (λ ev, uses_connection ev = false) post →
  count_where is_close evs = count_where is_opened evs
  ∧ (count_where is_opened evs ≤ 1)%nat
  ∧ Forall (λ ev, uses_connection ev = false) (after_close (evs ++ post)).
Proof.
  intros Hc Hpost.
  destruct Hc as [e|r evs Hb|r evs e' Hb].
  - split_and!; [done | unfold count_where; simpl; lia |].
    simpl. clear -Hpost. induction post as [|ev post IH]; [constructor |].
    apply Forall_cons in Hpost as [Hev Hpost]. simpl.
    destruct ev; simpl in *; try done; by apply IH.
  - pose proof (body_trace_statement_events _ _ Hb) as Hs.
    rewrite !count_where_cons, !count_where_app.
    rewrite (count_where_quiet is_close evs) by by apply statement_events_not_close.
    rewrite (count_where_quiet is_opened evs) by by apply statement_events_not_opened.
    split_and!; [done | unfold count_where; simpl; lia |].
    simpl. rewrite <- app_assoc.
    rewrite after_close_app_quiet by by apply statement_events_not_close.
    done.
  - pose proof (body_trace_statement_events _ _ Hb) as Hs.
    rewrite !count_where_cons, !count_where_app.
    rewrite (count_where_quiet is_close evs) by by apply statement_events_not_close.
    rewrite (count_where_quiet is_opened evs) by by apply statement_events_not_opened.
    split_and!; [done | unfold count_where; simpl; lia |].
    simpl. rewrite <- app_assoc.
    rewrite after_close_app_quiet by by apply statement_events_not_close.
    done.
Qed.

Section Connection.
Context {W Conn : Type} (E : Engine W Conn).

(** X5.  In every run of [drop_db] the connection is released on every way
    out: it is closed as often as it was opened, at most once, and after
    the close nothing is called on it, also when a statement or the commit
    has raised. *)
Theorem connection_released (st : State W) :
  let evs := since st (drop_db E st).2 in
  count_where is_close evs = count_where is_opened evs
  ∧ (count_where is_opened evs ≤ 1)%nat
  ∧ Forall (λ ev, uses_connection ev = false) (after_close evs).
Proof.
  intros evs. subst evs. pose proof (drop_db_since E st) as Ht.
  destruct Ht as [|e He|e evs He Hc|e e2 evs He He2 Hc|e e2 evs He He2 Hc].
  - split_and!; [done | unfold count_where; simpl; lia | constructor].
  - split_and!; [done | unfold count_where; simpl; lia | constructor].
  - destruct (cascade_trace_released _ _ [] Hc) as (H1 & H2 & H3); [constructor |].
    rewrite app_nil_r in H3.
    rewrite !count_where_cons. simpl. split_and!; [by rewrite H1 | done | done].
  - destruct (cascade_trace_released _ _ [EvLog ERROR (error_msg e2)] Hc)
      as (H1 & H2 & H3); [by repeat constructor |].
    rewrite !count_where_cons, !count_where_app. simpl.
    split_and!; [by rewrite H1 | by rewrite Nat.add_0_r | done].
  - destruct (cascade_trace_released _ _ [] Hc) as (H1 & H2 & H3); [constructor |].
    rewrite app_nil_r in H3.
    rewrite !count_where_cons. simpl. split_and!; [by rewrite H1 | done | done].
Qed.

End Connection.

(** ** The record of a completed reset, for any engine *)

Lemma warning_msg_not_complete e lvl : EvLog lvl (warning_msg e) ≠ reset_complete.
Proof. unfold warning_msg, reset_complete. rewrite !app_cons. discriminate. Qed.

Lemma error_msg_not_complete e lvl : EvLog lvl (error_msg e) ≠ reset_complete.
Proof. unfold error_msg, reset_complete. rewrite !app_cons. discriminate. Qed.

Lemma dropped_msg_not_complete ts lvl : EvLog lvl (dropped_msg ts) ≠ reset_complete.
Proof. unfold dropped_msg, reset_complete. rewrite !app_cons. discriminate. Qed.

Lemma drops_ok_not_complete tables evs :
  drops_ok tables evs → Forall (λ ev, ev ≠ reset_complete) evs.
Proof.
  induction 1 as [|t ev ts evs [rows ->] _ IH]; constructor; done.
Qed.

Lemma body_trace_not_complete r evs :
  body_trace r evs → Forall (λ ev, ev ≠ reset_complete) evs.
Proof.
  destruct 1 as [e|rows gone t rest dropped e Ht Hd|rows dropped e Hd|rows dropped Hd];
    forall_split;
    eauto using drops_ok_not_complete, dropped_msg_not_complete; done.
Qed.

Lemma cascade_trace_not_complete r evs :
  cascade_trace r evs → Forall (λ ev, ev ≠ reset_complete) evs.
Proof.
  destruct 1 as [e|r evs Hb|r evs e' Hb];
    forall_split; eauto using body_trace_not_complete; done.
Qed.

Lemma drop_trace_not_complete r evs :
  drop_trace r evs → Forall (λ ev, ev ≠ reset_complete) evs.
Proof.
  destruct 1 as [|e He|e evs He Hc|e e2 evs He He2 Hc|e e2 evs He He2 Hc];
    forall_split;
    eauto using cascade_trace_not_complete, warning_msg_not_complete,
                error_msg_not_complete; done.
Qed.

Section Completion.
Context {W Conn : Type} (E : Engine W Conn).

(** X6.  The record "Database reset complete." tells a reset that went
    through from one that did not: it closes the history when [reset_db]
    returns, and is absent from the run when [reset_db] raises, be it from
    the drop or from [create_all]. *)
Theorem reset_complete_iff_returns (st : State W) :
  match (reset_db E st).1 with
  | Returns _ => last (history (reset_db E st).2) = Some reset_complete
  | Raises _ => reset_complete ∉ since st (reset_db E st).2
  end.
Proof.
  pose proof (drop_db_since E (reset_start st)) as Ht.
  pose proof (drop_db_history E (reset_start st)) as Hh.
  apply drop_trace_not_complete in Ht. rewrite Forall_forall in Ht.
  rewrite reset_db_unfold.
  destruct (drop_db E (reset_start st)) as [[[]|x] st1]; simpl in *.
  - unfold_M. rewrite init_db_unfold.
    destruct (create_all E (world st1)) as [[[]|e] w2]; simpl.
    + apply last_snoc.
    + erewrite since_history;
        [| simpl; rewrite Hh; simpl; rewrite <- !app_assoc; simpl; reflexivity].
      intros Hin. elem_inv Hin; try done. by apply Ht in Hin.
  - erewrite since_history;
      [| rewrite Hh; simpl; rewrite <- !app_assoc; simpl; reflexivity].
    intros Hin. elem_inv Hin; try done. by apply Ht in Hin.
Qed.

End Completion.

(** ** What the operations add and remove, on the reference engine *)





(** ** All or nothing: the fallback and its commit *)






(** ** Runs of the further properties *)

Lemma drop_db_raises_engine_exception_witness :
  let st := start sample_catalog ["public"] [Some lock_timeout; None; Some connection_lost] in
  last_raised (since st (drop_db (engine sample_registry) st).2) = Some connection_lost.
Proof.
  intros st.
  apply (drop_db_raises_engine_exception (engine sample_registry) st _ connection_lost).
  vm_compute. reflexivity.
Defined.

Lemma drop_db_returns_after_logged_failure_witness :
  let st := start sample_catalog ["public"] [Some lock_timeout] in
  let st' := (drop_db (engine sample_registry) st).2 in
  omap raised_by (since st st') = []
  ∨ ∃ e, is_Exception e = true ∧
         omap raised_by (since st st') = [e] ∧
         (drop_all (engine sample_registry) (world st)).1 = Raises e ∧
         EvLog WARNING (warning_msg e) ∈ since st st'.
Proof.
  intros st st'.
  apply (drop_db_returns_after_logged_failure (engine sample_registry) st st').
  vm_compute. reflexivity.
Defined.

Lemma non_exception_passes_through_witness :
  let st := start sample_catalog ["public"] [Some keyboard_interrupt] in
  let st' := (drop_db (engine sample_registry) st).2 in
  (∀ msg, EvLog ERROR msg ∉ since st st')
  ∧ ((drop_all (engine sample_registry) (world st)).1 = Raises keyboard_interrupt →
     since st st' = [EvDropAll (Raises keyboard_interrupt)]).
Proof.
  intros st st'.
  apply (non_exception_passes_through (engine sample_registry) st st' keyboard_interrupt);
    vm_compute; reflexivity.
Defined.




